(** * girc/format.go: IRC formatting, identifier validation, case folding, globs

    A shallow embedding of [vendor/github.com/lrstanley/girc/format.go].

    Go strings are immutable byte sequences: they are modelled as [list byte].
    Go [int] values (lengths, indices, the [-1] of [strings.Index]) are [Z].
    An index or slice expression that is out of range panics in Go; the
    embedding runs in the [option] monad where [None] is that runtime panic,
    so that "this function never panics" is a theorem and not a convention. *)

From Stdlib Require Import ZArith Lia Strings.Byte Strings.String.
From stdpp Require Import base option list.

Local Open Scope Z_scope.

(** ** Bytes and strings *)

Abbreviation gostring := (list byte) (only parsing).

(** Numeric value of a byte, [0 .. 255]. *)
Definition val8 (b : byte) : Z := Z.of_N (Byte.to_N b).

(** Conversion of an integer to [byte] (Go's [byte(x)]: truncation to 8 bits). *)
Definition byte_of_Z (z : Z) : byte :=
  match Byte.of_N (Z.to_N (z mod 256)) with
  | Some b => b
  | None => x00
  end.

(** A string literal as a Go string. *)
Definition lit (s : string) : gostring := list_byte_of_string s.

Definition len {A} (l : list A) : Z := Z.of_nat (length l).

(** ** Runtime panics *)

Definition M (A : Type) : Type := option A.

(** [s[i]]: panics when [i] is out of range. *)
Definition at_ {A} (l : list A) (i : Z) : M A :=
  if (i <? 0) then None else l !! Z.to_nat i.

(** [s[i:]]: panics unless [0 <= i <= len(s)]. *)
Definition slice_from {A} (l : list A) (i : Z) : M (list A) :=
  if (0 <=? i) && (i <=? len l) then Some (drop (Z.to_nat i) l) else None.

(** ** Loops

    [for i := lo; i < hi; i++ { body }] with a loop state [S]. The body either
    continues with a new state, breaks out of the loop, or returns [r] from
    the enclosing function. The loop yields [inl s] when control falls out of
    the loop with state [s], and [inr r] when the function returned. *)

Inductive ctl (S R : Type) : Type :=
| Continue (s : S)
| Break (s : S)
| Return (r : R).
Arguments Continue {S R} s.
Arguments Break {S R} s.
Arguments Return {S R} r.

Fixpoint for_ {S R} (n : nat) (i : Z) (body : Z -> S -> M (ctl S R)) (s : S)
  : M (S + R) :=
  match n with
  | O => Some (inl s)
  | Datatypes.S n' =>
      c ← body i s;
      match c with
      | Continue s' => for_ n' (i + 1) body s'
      | Break s' => Some (inl s')
      | Return r => Some (inr r)
      end
  end.

Definition for_range {S R} (lo hi : Z) (body : Z -> S -> M (ctl S R)) (s : S)
  : M (S + R) :=
  for_ (Z.to_nat (hi - lo)) lo body s.

(** ** The parts of Go's [strings] and [bytes] packages that the file uses *)

Fixpoint bytes_eqb (a b : gostring) : bool :=
  match a, b with
  | [], [] => true
  | x :: a', y :: b' => Byte.eqb x y && bytes_eqb a' b'
  | _, _ => false
  end.

(** [strings.HasPrefix(s, prefix)] *)
Fixpoint HasPrefix (s prefix : gostring) : bool :=
  match prefix, s with
  | [], _ => true
  | p :: prefix', c :: s' => Byte.eqb c p && HasPrefix s' prefix'
  | _ :: _, [] => false
  end.

(** [strings.HasSuffix(s, suffix)]:
    [len(s) >= len(suffix) && s[len(s)-len(suffix):] == suffix] *)
Definition HasSuffix (s suffix : gostring) : bool :=
  (len suffix <=? len s) &&
  bytes_eqb (drop (length s - length suffix) s) suffix.

(** [strings.Index(s, substr)]: index of the first instance, or [-1]. *)
Fixpoint Index_from (s substr : gostring) (i : Z) : Z :=
  if HasPrefix s substr then i
  else match s with
       | [] => -1
       | _ :: s' => Index_from s' substr (i + 1)
       end.

Definition Index (s substr : gostring) : Z := Index_from s substr 0.

(** [strings.Contains(s, substr)]: [Index(s, substr) >= 0] *)
Definition Contains (s substr : gostring) : bool := 0 <=? Index s substr.

(** [bytes.IndexByte(b, c)]: index of the first [c] in [b], or [-1]. *)
Fixpoint IndexByte_from (b : gostring) (c : byte) (i : Z) : Z :=
  match b with
  | [] => -1
  | x :: b' => if Byte.eqb x c then i else IndexByte_from b' c (i + 1)
  end.

Definition IndexByte (b : gostring) (c : byte) : Z := IndexByte_from b c 0.

(** [strings.Split(s, sep)] for a non-empty separator: cut at each instance
    of [sep], left to right. (For an empty separator Go explodes [s] into its
    UTF-8 sequences; the file only ever splits on ["*"].) Each cut consumes
    at least one byte, so [length s] rounds are enough. *)
Fixpoint Split_rounds (rounds : nat) (s sep : gostring) : list gostring :=
  match rounds with
  | O => [s]
  | Datatypes.S k =>
      let i := Index s sep in
      if i <? 0 then [s]
      else take (Z.to_nat i) s
             :: Split_rounds k (drop (Z.to_nat (i + len sep)) s) sep
  end.

Definition Split (s sep : gostring) : list gostring :=
  Split_rounds (length s) s sep.

(** [strings.Replace(s, old, new, n)] for a non-empty [old]: the first [n]
    non-overlapping instances of [old] are replaced by [new], all of them when
    [n < 0]. Every call in the file passes a non-empty [old] and [n = -1]. *)
Fixpoint Replace_rounds (rounds : nat) (s old new : gostring) : gostring :=
  match rounds with
  | O => s
  | Datatypes.S k =>
      let j := Index s old in
      if j <? 0 then s
      else take (Z.to_nat j) s ++ new
             ++ Replace_rounds k (drop (Z.to_nat (j + len old)) s) old new
  end.

Definition Replace (s old new : gostring) (n : Z) : gostring :=
  if bytes_eqb old new || (n =? 0) then s
  else Replace_rounds (if n <? 0 then length s else Z.to_nat n) s old new.

(** Conversion of an integer to a string, [string(x)] for [x] of an integer
    type ([rune], [byte], ...): the result is the UTF-8 encoding of the code
    point [x], and that of U+FFFD when [x] is not a valid code point. In
    particular a [byte] above [0x7F] becomes two bytes: the Go specification
    gives [string(0xf8) == "\xc3\xb8"]. *)
Definition string_of_rune (r : Z) : gostring :=
  if (r <? 0) || (0x10FFFF <? r) || ((0xD800 <=? r) && (r <=? 0xDFFF))
  then [xef; xbf; xbd]
  else if r <? 0x80 then [byte_of_Z r]
  else if r <? 0x800 then
    [byte_of_Z (Z.lor 0xC0 (Z.shiftr r 6));
     byte_of_Z (Z.lor 0x80 (Z.land r 0x3F))]
  else if r <? 0x10000 then
    [byte_of_Z (Z.lor 0xE0 (Z.shiftr r 12));
     byte_of_Z (Z.lor 0x80 (Z.land (Z.shiftr r 6) 0x3F));
     byte_of_Z (Z.lor 0x80 (Z.land r 0x3F))]
  else
    [byte_of_Z (Z.lor 0xF0 (Z.shiftr r 18));
     byte_of_Z (Z.lor 0x80 (Z.land (Z.shiftr r 12) 0x3F));
     byte_of_Z (Z.lor 0x80 (Z.land (Z.shiftr r 6) 0x3F));
     byte_of_Z (Z.lor 0x80 (Z.land r 0x3F))].

(** ** The format-code table *)

Record ircFmtCode : Type := { aliases : list gostring; val : gostring }.

Definition color (d1 d2 : byte) : gostring := [x03; d1; d2].

Definition codes : list ircFmtCode :=
  [ {| aliases := [lit "white"]; val := color x30 x30 |};
    {| aliases := [lit "black"]; val := color x30 x31 |};
    {| aliases := [lit "blue"; lit "navy"]; val := color x30 x32 |};
    {| aliases := [lit "green"]; val := color x30 x33 |};
    {| aliases := [lit "red"]; val := color x30 x34 |};
    {| aliases := [lit "brown"; lit "maroon"]; val := color x30 x35 |};
    {| aliases := [lit "purple"]; val := color x30 x36 |};
    {| aliases := [lit "orange"; lit "olive"; lit "gold"]; val := color x30 x37 |};
    {| aliases := [lit "yellow"]; val := color x30 x38 |};
    {| aliases := [lit "lightgreen"; lit "lime"]; val := color x30 x39 |};
    {| aliases := [lit "teal"]; val := color x31 x30 |};
    {| aliases := [lit "cyan"]; val := color x31 x31 |};
    {| aliases := [lit "lightblue"; lit "royal"]; val := color x31 x32 |};
    {| aliases := [lit "lightpurple"; lit "pink"; lit "fuchsia"]; val := color x31 x33 |};
    {| aliases := [lit "grey"; lit "gray"]; val := color x31 x34 |};
    {| aliases := [lit "lightgrey"; lit "silver"]; val := color x31 x35 |};
    {| aliases := [lit "bold"; lit "b"]; val := [x02] |};
    {| aliases := [lit "italic"; lit "i"]; val := [x1d] |};
    {| aliases := [lit "reset"; lit "r"]; val := [x0f] |};
    {| aliases := [lit "clear"; lit "c"]; val := [x03] |};
    {| aliases := [lit "reverse"]; val := [x16] |};
    {| aliases := [lit "underline"; lit "ul"]; val := [x1f] |};
    {| aliases := [lit "ctcp"]; val := [x01] |} ].

(** ["{" + alias + "}"] *)
Definition token (alias : gostring) : gostring := lit "{" ++ alias ++ lit "}".

(** ** The functions of format.go *)

(** A loop whose body has no [return] can only be left by falling out of it. *)
Definition fell_out {S} (r : S + Empty_set) : S :=
  match r with
  | inl s => s
  | inr e => match e with end
  end.

(** The scan
    [for c := 0; c < len(text); c++ { if text[c] == 0x7B { more = true; break } }]. *)
Definition scan_more (text : gostring) : M bool :=
  r ← for_range 0 (len text)
        (fun c (more : bool) =>
           ch ← at_ text c;
           if val8 ch =? 0x7B then Some (Break true) else Some (Continue more))
        false;
  Some (fell_out r).

Definition Fmt (text : gostring) : M gostring :=
  r ← for_range 0 (len codes)
        (fun i text =>
           ci ← at_ codes i;
           r ← for_range 0 (len (aliases ci))
                 (fun a text =>
                    ci ← at_ codes i;
                    alias ← at_ (aliases ci) a;
                    Some (Continue (Replace text (token alias) (val ci) (-1))))
                 text;
           let text := fell_out r in
           more ← scan_more text;
           if negb more then Some (Return text) else Some (Continue text))
        text;
  match r with
  | inl text => Some text
  | inr text => Some text
  end.

Definition TrimFmt (text : gostring) : M gostring :=
  r ← for_range 0 (len codes)
        (fun i text =>
           ci ← at_ codes i;
           r ← for_range 0 (len (aliases ci))
                 (fun a text =>
                    ci ← at_ codes i;
                    alias ← at_ (aliases ci) a;
                    Some (Continue (Replace text (token alias) [] (-1))))
                 text;
           let text := fell_out r in
           more ← scan_more text;
           if negb more then Some (Return text) else Some (Continue text))
        text;
  match r with
  | inl text => Some text
  | inr text => Some text
  end.

Definition StripRaw (text : gostring) : M gostring :=
  r ← for_range 0 (len codes)
        (fun i text =>
           ci ← at_ codes i;
           Some (Continue (Replace text (val ci) [] (-1))))
        text;
  Some (fell_out r).

Definition ToRFC1459 (input : gostring) : M gostring :=
  r ← for_range 0 (len input)
        (fun i out =>
           c ← at_ input i;
           if (65 <=? val8 c) && (val8 c <=? 94) then
             Some (Continue (out ++ string_of_rune (val8 c + 32)))
           else
             Some (Continue (out ++ string_of_rune (val8 c))))
        [];
  Some (fell_out r).

Definition IsValidChannel (channel : gostring) : M bool :=
  if (len channel <=? 1) || (50 <? len channel) then Some false else
  c0 ← at_ channel 0;
  if IndexByte [x21; x23; x26; x2a; x2b] c0 =? -1 then Some false else
  r ← (if val8 c0 =? 0x21 then
         if len channel <? 7 then Some (inr false) else
         for_range 1 6
           (fun i (_ : unit) =>
              ci ← at_ channel i;
              if ((val8 ci <? 0x30) || (0x39 <? val8 ci))
                 && ((val8 ci <? 0x41) || (0x5A <? val8 ci))
              then Some (Return false) else Some (Continue tt))
           tt
       else Some (inl tt));
  match r with
  | inr b => Some b
  | inl _ =>
      let bad := [x00; x07; x0d; x0a; x20; x2c; x3a] in
      r ← for_range 1 (len channel)
            (fun i (_ : unit) =>
               ci ← at_ channel i;
               if negb (IndexByte bad ci =? -1)
               then Some (Return false) else Some (Continue tt))
            tt;
      match r with
      | inr b => Some b
      | inl _ => Some true
      end
  end.

Definition IsValidNick (nick : gostring) : M bool :=
  if len nick <=? 0 then Some false else
  nick ← ToRFC1459 nick;
  c0 ← at_ nick 0;
  if (val8 c0 <? 0x41) || (0x7D <? val8 c0) then Some false else
  r ← for_range 1 (len nick)
        (fun i (_ : unit) =>
           c ← at_ nick i;
           if ((val8 c <? 0x41) || (0x7D <? val8 c))
              && ((val8 c <? 0x30) || (0x39 <? val8 c))
              && negb (val8 c =? 0x2D)
           then Some (Return false) else Some (Continue tt))
        tt;
  match r with
  | inr b => Some b
  | inl _ => Some true
  end.

Definition IsValidUser (name : gostring) : M bool :=
  if len name <=? 0 then Some false else
  name ← ToRFC1459 name;
  c0 ← at_ name 0;
  r ← (if val8 c0 =? 0x7E then
         if len name <? 2 then Some (inr false)
         else name' ← slice_from name 1; Some (inl name')
       else Some (inl name));
  match r with
  | inr b => Some b
  | inl name =>
      c0 ← at_ name 0;
      if ((val8 c0 <? 0x41) || (0x4A <? val8 c0))
         && ((val8 c0 <? 0x61) || (0x7A <? val8 c0))
         && ((val8 c0 <? 0x30) || (0x39 <? val8 c0))
      then Some false else
      r ← for_range 1 (len name)
            (fun i (_ : unit) =>
               c ← at_ name i;
               if ((val8 c <? 0x41) || (0x7D <? val8 c))
                  && ((val8 c <? 0x30) || (0x39 <? val8 c))
                  && negb (val8 c =? 0x2D) && negb (val8 c =? 0x2E)
               then Some (Return false) else Some (Continue tt))
            tt;
      match r with
      | inr b => Some b
      | inl _ => Some true
      end
  end.

Definition globChar : gostring := lit "*".

Definition Glob (input match_ : gostring) : M bool :=
  if bytes_eqb match_ [] then Some (bytes_eqb input match_) else
  if bytes_eqb match_ globChar then Some true else
  let parts := Split match_ globChar in
  if len parts =? 1 then Some (bytes_eqb input match_) else
  let leadingGlob := HasPrefix match_ globChar in
  let trailingGlob := HasSuffix match_ globChar in
  let last := len parts - 1 in
  mismatch ← (if negb leadingGlob
              then p0 ← at_ parts 0; Some (negb (HasPrefix input p0))
              else Some false);
  if (mismatch : bool) then Some false else
  r ← for_range 1 last
        (fun i input =>
           p ← at_ parts i;
           if negb (Contains input p) then Some (Return false) else
           let idx := Index input p + len p in
           input' ← slice_from input idx;
           Some (Continue input'))
        input;
  match r with
  | inr b => Some b
  | inl input =>
      if trailingGlob then Some true
      else p ← at_ parts last; Some (HasSuffix input p)
  end.

(** * Derived forms and specification predicates

    The loops of the source are folds and scans over lists; this part names
    those folds, and states the rules of the specification as predicates. The
    theorems of the second part connect the three. *)

(** Equality of bytes is decidable. *)
#[global] Instance byte_eq_dec : EqDecision byte.
Proof.
  intros a b. destruct (Byte.eqb a b) eqn:E.
  - left. apply Byte.byte_dec_bl, E.
  - right. intros H. apply Byte.byte_dec_lb in H. congruence.
Defined.

(** ** Loops over the elements of a list *)

(** A loop over the elements of a list, with early exits. *)
Fixpoint run_elems {A S R} (g : A -> S -> ctl S R) (l : list A) (s : S) : S + R :=
  match l with
  | [] => inl s
  | a :: l' =>
      match g a s with
      | Continue s' => run_elems g l' s'
      | Break s' => inl s'
      | Return r => inr r
      end
  end.

(** ** Case folding *)

(** What one input byte contributes to the output of [ToRFC1459]. *)
Definition fold_bytes (c : byte) : gostring :=
  if (65 <=? val8 c) && (val8 c <=? 94)
  then string_of_rune (val8 c + 32) else string_of_rune (val8 c).

(** The case mapping on one byte as the specification words it: add 32 to a
    byte in [65 .. 94], leave any other byte alone. *)
Definition fold_byte (c : byte) : byte :=
  if (65 <=? val8 c) && (val8 c <=? 94) then byte_of_Z (val8 c + 32) else c.

(** The case folder as the specification words it: a byte-wise map. *)
Definition FoldCase_spec (input : gostring) : gostring := map fold_byte input.

Definition lead_byte (c : byte) : byte :=
  byte_of_Z (Z.lor 0xC0 (Z.shiftr (val8 c) 6)).

Definition cont_byte (c : byte) : byte :=
  byte_of_Z (Z.lor 0x80 (Z.land (val8 c) 0x3F)).

(** ** The tests of IsValidNick and IsValidUser *)

(** [first c0 && all rest] on a non-empty string, [false] on the empty one. *)
Definition check_name (first rest : byte -> bool) (f : gostring) : bool :=
  match f with
  | [] => false
  | c0 :: t => first c0 && forallb rest t
  end.

(** The tests of the source, with its constants. *)
Definition nick_first (c : byte) : bool :=
  negb ((val8 c <? 0x41) || (0x7D <? val8 c)).

Definition nick_other_bad (c : byte) : bool :=
  ((val8 c <? 0x41) || (0x7D <? val8 c))
  && ((val8 c <? 0x30) || (0x39 <? val8 c))
  && negb (val8 c =? 0x2D).

Definition user_first (c : byte) : bool :=
  negb (((val8 c <? 0x41) || (0x4A <? val8 c))
        && ((val8 c <? 0x61) || (0x7A <? val8 c))
        && ((val8 c <? 0x30) || (0x39 <? val8 c))).

Definition user_other_bad (c : byte) : bool :=
  ((val8 c <? 0x41) || (0x7D <? val8 c))
  && ((val8 c <? 0x30) || (0x39 <? val8 c))
  && negb (val8 c =? 0x2D) && negb (val8 c =? 0x2E).

Definition user_check (f : gostring) : bool :=
  match f with
  | [] => false
  | c0 :: t =>
      if val8 c0 =? 0x7E
      then check_name user_first (fun c => negb (user_other_bad c)) t
      else check_name user_first (fun c => negb (user_other_bad c)) f
  end.

(** ** The validation rules as the specification words them *)

Definition between (lo hi : Z) (c : byte) : Prop := lo <= val8 c <= hi.

Definition is_digit (c : byte) : Prop := between 0x30 0x39 c.
Definition is_upper (c : byte) : Prop := between 0x41 0x5A c.
Definition is_lower (c : byte) : Prop := between 0x61 0x7A c.
Definition is_letter (c : byte) : Prop := is_upper c \/ is_lower c.
Definition is_alnum (c : byte) : Prop := is_letter c \/ is_digit c.

(** The nickname range, [0x41 .. 0x7D]. *)
Definition nick_range (c : byte) : Prop := between 0x41 0x7D c.

(** First byte in the range; every later byte in the range, a digit or a hyphen. *)
Definition nick_spec (f : gostring) : Prop :=
  exists c0 t, f = c0 :: t /\ nick_range c0 /\
    Forall (fun c => nick_range c \/ is_digit c \/ val8 c = 0x2D) t.

(** A leading ['~'] is dropped. *)
Definition strip_tilde (f : gostring) : gostring :=
  match f with
  | c0 :: t => if decide (c0 = "~"%byte) then t else f
  | [] => []
  end.

(** What is left after the ['~'] is non-empty, starts with an alphanumeric
    byte and goes on with bytes in the nickname range, digits, hyphens or
    periods. *)
Definition user_spec (f : gostring) : Prop :=
  exists c0 t, strip_tilde f = c0 :: t /\ is_alnum c0 /\
    Forall (fun c => nick_range c \/ is_digit c \/ c = "-"%byte \/ c = "."%byte) t.

(** A test that fails on every byte above [0x7F]. *)
Definition rejects_high (p : byte -> bool) : Prop :=
  forall c, 128 <= val8 c -> p c = false.

(** ** The tests of IsValidChannel *)

Definition id_bad (c : byte) : bool :=
  ((val8 c <? 0x30) || (0x39 <? val8 c)) && ((val8 c <? 0x41) || (0x5A <? val8 c)).

Definition octet_bad (c : byte) : bool :=
  negb (IndexByte [x00; x07; x0d; x0a; x20; x2c; x3a] c =? -1).

Definition channel_check (channel : gostring) : bool :=
  match channel with
  | [] => false
  | c0 :: t =>
      negb ((len channel <=? 1) || (50 <? len channel))
      && negb (IndexByte [x21; x23; x26; x2a; x2b] c0 =? -1)
      && (if val8 c0 =? 0x21
          then negb (len channel <? 7)
               && forallb (fun c => negb (id_bad c)) (take 5 t)
          else true)
      && forallb (fun c => negb (octet_bad c)) t
  end.

(** The rules of the specification, over byte positions. *)
Definition channel_spec (c : gostring) : Prop :=
  2 <= len c <= 50 /\
  (exists c0, c !! 0%nat = Some c0 /\ c0 ∈ lit "!#&*+") /\
  (c !! 0%nat = Some "!"%byte ->
   7 <= len c /\
   forall i, (1 <= i <= 5)%nat -> exists b, c !! i = Some b /\ (is_digit b \/ is_upper b)) /\
  (forall i b, (1 <= i)%nat -> c !! i = Some b ->
               b ∉ [x00; x07; x0d; x0a; " "%byte; ","%byte; ":"%byte]).

(** ** Substrings *)

(** [sub] occurs in [s] as a contiguous substring. *)
Definition occurs (sub s : gostring) : Prop := exists u v, s = u ++ sub ++ v.

(** [u] is what precedes the first instance of [sub] in [s]. *)
Definition first_at (sub s u : gostring) : Prop :=
  (exists v, s = u ++ sub ++ v) /\
  forall u' v', s = u' ++ sub ++ v' -> (length u <= length u')%nat.

(** ** The format-code table, Fmt and TrimFmt *)

(** The one-byte codes, in table order: they end the table. *)
Definition control_bytes : gostring := [x02; x1d; x0f; x03; x16; x1f; x01].

(** [Fmt] and [TrimFmt] are the same loops and differ in what an alias of the
    table entry [c] is replaced by: [subst c]. *)
Definition sweep (subst : ircFmtCode -> gostring) (text : gostring) : M gostring :=
  r ← for_range 0 (len codes)
        (fun i text =>
           ci ← at_ codes i;
           r ← for_range 0 (len (aliases ci))
                 (fun a text =>
                    ci ← at_ codes i;
                    alias ← at_ (aliases ci) a;
                    Some (Continue (Replace text (token alias) (subst ci) (-1))))
                 text;
           let text := fell_out r in
           more ← scan_more text;
           if negb more then Some (Return text) else Some (Continue text))
        text;
  match r with
  | inl text => Some text
  | inr text => Some text
  end.

(** Does the text still hold a ['{']? *)
Definition has_brace (text : gostring) : bool :=
  existsb (fun c => val8 c =? 0x7B) text.

(** One table entry: all its aliases are replaced, in order. *)
Definition sweep_entry (subst : ircFmtCode -> gostring) (text : gostring)
    (ci : ircFmtCode) : gostring :=
  foldl (fun t alias => Replace t (token alias) (subst ci) (-1)) text (aliases ci).

(** The table entries in order, stopping once no ['{'] is left. *)
Fixpoint sweep_entries (subst : ircFmtCode -> gostring) (cs : list ircFmtCode)
    (text : gostring) : gostring :=
  match cs with
  | [] => text
  | ci :: cs' =>
      let text' := sweep_entry subst text ci in
      if has_brace text' then sweep_entries subst cs' text' else text'
  end.

Definition strip (t alias : gostring) : gostring := Replace t (token alias) [] (-1).

Definition all_aliases : list gostring := flat_map aliases codes.

(** ** Texts without a brace inside a brace *)

(** Scanning left to right: are we after a ['{'] that no ['}'] has closed? *)
Definition step_brace (open : bool) (c : byte) : bool :=
  if decide (c = "{"%byte) then true
  else if decide (c = "}"%byte) then false
  else open.

Definition brace_state (open : bool) (s : gostring) : bool :=
  foldl step_brace open s.

(** No ['{'] comes while an earlier ['{'] is still open. *)
Fixpoint flat_from (open : bool) (s : gostring) : bool :=
  match s with
  | [] => true
  | c :: s' =>
      (if decide (c = "{"%byte) then negb open else true)
      && flat_from (step_brace open c) s'
  end.

(** Between two ['{'] of [s] there always is a ['}']. *)
Definition brace_flat (s : gostring) : Prop := flat_from false s = true.

(** No brace at all. *)
Definition plain (a : gostring) : Prop := ("{"%byte ∉ a) /\ ("}"%byte ∉ a).

Definition plainb (a : gostring) : bool :=
  forallb (fun c => negb (Byte.eqb c "{"%byte) && negb (Byte.eqb c "}"%byte)) a.

(** ** Glob *)

(** The middle parts in order: each one must occur in what is left of the
    input, which is then cut after the first instance. [None] is a part that
    does not occur. *)
Fixpoint glob_middle (ps : list gostring) (input : gostring) : option gostring :=
  match ps with
  | [] => Some input
  | p :: ps' =>
      if Contains input p
      then glob_middle ps' (drop (Z.to_nat (Index input p + len p)) input)
      else None
  end.

(** The verdict on a pattern cut into a first part, middle parts and a last
    part. The prefix test does not cut the input. *)
Definition glob_parts (input match_ p0 : gostring) (middle : list gostring)
    (plast : gostring) : bool :=
  if negb (HasPrefix match_ globChar) && negb (HasPrefix input p0) then false
  else match glob_middle middle input with
       | None => false
       | Some rest => HasSuffix match_ globChar || HasSuffix rest plast
       end.

(** The middle parts as the specification words them: each part must occur
    in what is left of the input, and the input is cut after the first
    instance of the part. [consume ps input rest]: the parts [ps] are found
    in order and [rest] is what is left. *)
Inductive consume : list gostring -> gostring -> gostring -> Prop :=
| consume_done input : consume [] input input
| consume_part p ps u v rest :
    first_at p (u ++ p ++ v) u -> consume ps v rest ->
    consume (p :: ps) (u ++ p ++ v) rest.

(** What C1 requires of an accepted input: the first part is a prefix and is
    consumed, the middle parts are then consumed in order, and what is left
    ends with the last part unless the pattern ends with ['*']. *)
Definition glob_claim (input pattern : gostring) : Prop :=
  exists p0 middle plast,
    Split pattern globChar = p0 :: middle ++ [plast] /\
    exists rest0, input = p0 ++ rest0 /\
    exists rest, consume middle rest0 rest /\
      (HasSuffix pattern globChar = true \/ HasSuffix rest plast = true).

(** What the code requires: the same, except that the middle parts are
    searched in the whole input, the first part included. *)
Definition glob_uncut (input pattern : gostring) : Prop :=
  exists p0 middle plast,
    Split pattern globChar = p0 :: middle ++ [plast] /\
    (exists rest0, input = p0 ++ rest0) /\
    exists rest, consume middle input rest /\
      (HasSuffix pattern globChar = true \/ HasSuffix rest plast = true).

(** * Further predicates *)

(** The code point that a two-byte UTF-8 sequence stands for. *)
Definition decode_pair (l k : byte) : byte :=
  byte_of_Z (Z.lor (Z.shiftl (Z.land (val8 l) 0x1F) 6) (Z.land (val8 k) 0x3F)).

(** A byte of the nickname range other than ['^']: the bytes whose fold is
    in the nickname range. *)
Definition nick_char (c : byte) : Prop := between 0x41 0x7D c /\ c <> "^"%byte.

(** The replacements of [Fmt] in table order: each alias with the value of
    its entry. *)
Definition fmt_pairs : list (gostring * gostring) :=
  flat_map (fun ci => map (fun a => (a, val ci)) (aliases ci)) codes.

(** One replacement: every ["{alias}"] becomes the value. *)
Definition subst_pair (t : gostring) (p : gostring * gostring) : gostring :=
  Replace t (token (fst p)) (snd p) (-1).

(** The text holds no ["{alias}"] for any alias of the table. *)
Definition token_free (t : gostring) : Prop :=
  forall ci a, ci ∈ codes -> a ∈ aliases ci -> ~ occurs (token a) t.

(** A replacement of the table: a non-empty value of control bytes and
    digits, shorter than the token, whose bytes are letters and braces. *)
Definition pair_ok (p : gostring * gostring) : bool :=
  forallb (fun b => val8 b <? 0x40) (snd p)
  && forallb (fun b => 0x40 <=? val8 b) (token (fst p))
  && (0 <? len (snd p)) && (len (snd p) <? len (token (fst p))).

(** ["*" ++ q1 ++ "*" ++ q2 ++ ...]: the parts of a pattern after the
    first, each behind its ['*']. *)
Definition star_join (qs : list gostring) : gostring :=
  flat_map (fun q => globChar ++ q) qs.

(** * Properties *)

(** ** Sanity checks: the examples of the documentation *)

Example Fmt_doc_example :
  Fmt (lit "{red}{bold}Hello World{c}")
  = Some ([x03; x30; x34; x02] ++ lit "Hello World" ++ [x03]).
Proof. vm_compute. reflexivity. Qed.

Example TrimFmt_example : TrimFmt (lit "{red}{bold}Hello {x} World{c}") = Some (lit "Hello {x} World").
Proof. vm_compute. reflexivity. Qed.

Example StripRaw_example :
  StripRaw ([x03; x30; x34; x02] ++ lit "Hello World" ++ [x03]) = Some (lit "Hello World").
Proof. vm_compute. reflexivity. Qed.

Example IsValidChannel_examples :
  IsValidChannel (lit "#valid") = Some true /\ IsValidChannel (lit "#") = Some false /\
  IsValidChannel (lit "!AAAAA+x") = Some true /\ IsValidChannel (lit "#a,b") = Some false.
Proof. vm_compute. auto. Qed.

Example IsValidNick_examples :
  IsValidNick (lit "Nick_1") = Some true /\ IsValidNick (lit "1abc") = Some false /\
  IsValidNick [] = Some false.
Proof. vm_compute. auto. Qed.

Example IsValidUser_examples :
  IsValidUser (lit "~user.name") = Some true /\ IsValidUser (lit "~") = Some false.
Proof. vm_compute. auto. Qed.

Example ToRFC1459_example : ToRFC1459 (lit "[TEST]") = Some (lit "{test}").
Proof. vm_compute. reflexivity. Qed.

Example Glob_examples :
  Glob (lit "hello world") (lit "hello*") = Some true /\
  Glob (lit "hello world") (lit "*world") = Some true /\
  Glob (lit "hello world") (lit "h*o") = Some false /\
  Glob (lit "hello world") (lit "h*d") = Some true /\
  Glob (lit "hello world") (lit "h*o w*d") = Some true /\
  Glob (lit "abc") [] = Some false /\ Glob [] [] = Some true /\
  Glob (lit "anything") (lit "*") = Some true.
Proof. vm_compute. repeat split. Qed.

(** ** Bytes *)

Lemma val8_range (b : byte) : 0 <= val8 b < 256.
Proof.
  unfold val8. pose proof (Byte.to_N_bounded b) as H.
  split; [apply N2Z.is_nonneg|]. lia.
Qed.

Lemma byte_of_Z_val8 (b : byte) : byte_of_Z (val8 b) = b.
Proof.
  unfold byte_of_Z. rewrite Z.mod_small by apply val8_range.
  unfold val8. rewrite N2Z.id, Byte.of_to_N. reflexivity.
Qed.

Lemma val8_byte_of_Z (z : Z) : val8 (byte_of_Z z) = z mod 256.
Proof.
  unfold byte_of_Z, val8.
  pose proof (Z.mod_pos_bound z 256 ltac:(lia)) as Hz.
  destruct (Byte.of_N (Z.to_N (z mod 256))) as [b|] eqn:E.
  - apply Byte.to_of_N in E. rewrite E. lia.
  - apply Byte.of_N_None_iff in E. lia.
Qed.

Lemma val8_inj (a b : byte) : val8 a = val8 b -> a = b.
Proof.
  intros H. rewrite <- (byte_of_Z_val8 a), <- (byte_of_Z_val8 b). congruence.
Qed.

Lemma byte_eqb_eq (a b : byte) : Byte.eqb a b = true <-> a = b.
Proof.
  split; [apply Byte.byte_dec_bl | apply Byte.byte_dec_lb].
Qed.

Lemma byte_eqb_neq (a b : byte) : Byte.eqb a b = false <-> a <> b.
Proof.
  rewrite <- byte_eqb_eq. destruct (Byte.eqb a b); split; congruence.
Qed.

Lemma bytes_eqb_eq (a b : gostring) : bytes_eqb a b = true <-> a = b.
Proof.
  revert b. induction a as [|x a IH]; intros [|y b]; simpl; try (split; congruence).
  rewrite andb_true_iff, byte_eqb_eq, IH. split; [intros []|intros [=]]; subst; auto.
Qed.

Lemma bytes_eqb_refl (a : gostring) : bytes_eqb a a = true.
Proof. apply bytes_eqb_eq. reflexivity. Qed.

(** ** Indexing and loops *)

Lemma Some_eq_inv {A} (x y : A) : Some x = Some y -> x = y.
Proof. congruence. Qed.

Lemma len_nonneg {A} (l : list A) : 0 <= len l.
Proof. unfold len. lia. Qed.

Lemma len_app {A} (l k : list A) : len (l ++ k) = len l + len k.
Proof. unfold len. rewrite length_app. lia. Qed.

Lemma at_nat {A} (l : list A) (n : nat) : at_ l (Z.of_nat n) = l !! n.
Proof.
  unfold at_. destruct (Z.ltb_spec (Z.of_nat n) 0); [lia|].
  rewrite Nat2Z.id. reflexivity.
Qed.

Lemma at_is_Some {A} (l : list A) (i : Z) : 0 <= i < len l -> is_Some (at_ l i).
Proof.
  intros H. unfold at_, len in *. destruct (Z.ltb_spec i 0); [lia|].
  apply lookup_lt_is_Some. lia.
Qed.

Lemma slice_from_nat {A} (l : list A) (n : nat) :
  (n <= length l)%nat -> slice_from l (Z.of_nat n) = Some (drop n l).
Proof.
  intros H. unfold slice_from, len.
  destruct (Z.leb_spec 0 (Z.of_nat n)); [|lia].
  destruct (Z.leb_spec (Z.of_nat n) (Z.of_nat (length l))); [|lia].
  simpl. rewrite Nat2Z.id. reflexivity.
Qed.

(** A loop that folds [f] over the elements [l[k]], [l[k+1]], ... *)
Lemma for_foldl {A S R} (f : S -> A -> S) (body : Z -> S -> M (ctl S R))
    (l1 l2 : list A) (s : S) :
  (forall i a s, (l1 ++ l2) !! i = Some a ->
                 body (Z.of_nat i) s = Some (Continue (f s a))) ->
  for_ (length l2) (len l1) body s = Some (inl (foldl f s l2)).
Proof.
  intros Hbody. revert l1 s Hbody.
  induction l2 as [|a l2 IH]; intros l1 s Hbody; simpl; [reflexivity|].
  unfold len. rewrite (Hbody (length l1) a s); simpl.
  - specialize (IH (l1 ++ [a]) (f s a)).
    unfold len in IH. rewrite length_app in IH. simpl in IH.
    replace (Z.of_nat (length l1) + 1) with (Z.of_nat (length l1 + 1)) by lia.
    apply IH. intros i b s'. rewrite <- app_assoc. apply Hbody.
  - rewrite lookup_app_r by lia. rewrite Nat.sub_diag. reflexivity.
Qed.

Lemma for_range_foldl {A S R} (f : S -> A -> S) (body : Z -> S -> M (ctl S R))
    (l : list A) (s : S) :
  (forall i a s, l !! i = Some a ->
                 body (Z.of_nat i) s = Some (Continue (f s a))) ->
  for_range 0 (len l) body s = Some (inl (foldl f s l)).
Proof.
  intros Hbody. unfold for_range.
  replace (Z.to_nat (len l - 0)) with (length l) by (unfold len; lia).
  apply (for_foldl f body [] l s Hbody).
Qed.

(** A loop that returns [false] at the first element that fails a test. *)
Lemma for_check {A} (bad : A -> bool) (body : Z -> unit -> M (ctl unit bool))
    (l : list A) (n k : nat) :
  (forall i u, body i u
     = (c ← at_ l i; if bad c then Some (Return false) else Some (Continue tt))) ->
  (k + n <= length l)%nat ->
  for_ n (Z.of_nat k) body tt
  = Some (if forallb (fun c => negb (bad c)) (take n (drop k l))
          then inl tt else inr false).
Proof.
  intros Hbody. revert k. induction n as [|n IH]; intros k Hk; simpl.
  - reflexivity.
  - rewrite Hbody, at_nat.
    destruct (lookup_lt_is_Some_2 l k ltac:(lia)) as [c Hc].
    rewrite Hc. simpl.
    rewrite (drop_S l c k Hc). simpl.
    destruct (bad c); simpl; [reflexivity|].
    replace (Z.of_nat k + 1) with (Z.of_nat (Datatypes.S k)) by lia.
    apply IH. lia.
Qed.

Lemma for_range_check {A} (bad : A -> bool) (body : Z -> unit -> M (ctl unit bool))
    (l : list A) (lo hi : nat) :
  (forall i u, body i u
     = (c ← at_ l i; if bad c then Some (Return false) else Some (Continue tt))) ->
  (hi <= length l)%nat ->
  for_range (Z.of_nat lo) (Z.of_nat hi) body tt
  = Some (if forallb (fun c => negb (bad c)) (take (hi - lo) (drop lo l))
          then inl tt else inr false).
Proof.
  intros Hbody Hhi. unfold for_range.
  replace (Z.to_nat (Z.of_nat hi - Z.of_nat lo)) with (hi - lo)%nat by lia.
  destruct (Nat.le_gt_cases lo hi).
  - apply for_check; [assumption | lia].
  - replace (hi - lo)%nat with 0%nat by lia. reflexivity.
Qed.

(** ** ToRFC1459 *)

Lemma foldl_app_flat_map {A B} (g : A -> list B) (l : list A) (acc : list B) :
  foldl (fun out c => out ++ g c) acc l = acc ++ flat_map g l.
Proof.
  revert acc. induction l as [|a l IH]; intros acc; simpl.
  - rewrite app_nil_r. reflexivity.
  - rewrite IH, <- app_assoc. reflexivity.
Qed.

Lemma ToRFC1459_run (input : gostring) :
  ToRFC1459 input = Some (flat_map fold_bytes input).
Proof.
  unfold ToRFC1459.
  rewrite (for_range_foldl (fun out c => out ++ fold_bytes c)).
  - simpl. rewrite foldl_app_flat_map. reflexivity.
  - intros i a s Hi. rewrite at_nat, Hi. simpl. unfold fold_bytes.
    destruct ((65 <=? val8 a) && (val8 a <=? 94)); reflexivity.
Qed.

Lemma fold_bytes_shape (c : byte) :
  fold_bytes c
  = if val8 c <? 128 then [fold_byte c] else [lead_byte c; cont_byte c].
Proof. destruct c; vm_compute; reflexivity. Qed.

Lemma high_bytes_stay_high (c : byte) :
  (val8 c <? 128) || ((128 <=? val8 (lead_byte c)) && (128 <=? val8 (cont_byte c)))
  = true.
Proof. destruct c; vm_compute; reflexivity. Qed.

Lemma fold_byte_val (c : byte) :
  val8 (fold_byte c) = if (65 <=? val8 c) && (val8 c <=? 94) then val8 c + 32 else val8 c.
Proof.
  unfold fold_byte.
  destruct ((65 <=? val8 c) && (val8 c <=? 94)) eqn:E; [|reflexivity].
  rewrite val8_byte_of_Z. apply Z.mod_small. lia.
Qed.

Lemma fold_bytes_nonempty (c : byte) : fold_bytes c <> [].
Proof.
  rewrite fold_bytes_shape. destruct (val8 c <? 128); discriminate.
Qed.

Lemma ToRFC1459_ascii (input : gostring) :
  Forall (fun c => val8 c < 128) input ->
  ToRFC1459 input = Some (FoldCase_spec input).
Proof.
  intros H. rewrite ToRFC1459_run. f_equal. unfold FoldCase_spec.
  induction H as [|c l Hc _ IH]; simpl; [reflexivity|].
  rewrite IH, fold_bytes_shape.
  destruct (Z.ltb_spec (val8 c) 128); [reflexivity | lia].
Qed.

Lemma flat_map_fold_bytes_length (input : gostring) :
  length (flat_map fold_bytes input)
  = (length input + length (filter (fun c => (128 <= val8 c)%Z) input))%nat.
Proof.
  induction input as [|c l IH]; [reflexivity|].
  change (flat_map fold_bytes (c :: l)) with (fold_bytes c ++ flat_map fold_bytes l).
  rewrite length_app, IH, fold_bytes_shape.
  destruct (Z.ltb_spec (val8 c) 128).
  - rewrite filter_cons_False by lia. simpl. lia.
  - rewrite filter_cons_True by lia. simpl. lia.
Qed.

(** [ToRFC1459] is a byte-wise map of the same length exactly on the inputs
    without a byte above [0x7F]. *)
Lemma ToRFC1459_bytewise_iff (input : gostring) :
  ToRFC1459 input = Some (FoldCase_spec input)
  <-> Forall (fun c => val8 c < 128) input.
Proof.
  split; [|apply ToRFC1459_ascii].
  rewrite ToRFC1459_run. intros [= H].
  apply (f_equal length) in H.
  rewrite flat_map_fold_bytes_length in H. unfold FoldCase_spec in H.
  rewrite length_map in H.
  assert (filter (fun c => (128 <= val8 c)%Z) input = []) as Hnil
    by (apply length_zero_iff_nil; lia).
  apply Forall_forall. intros c Hc.
  destruct (Z.lt_ge_cases (val8 c) 128) as [|Hge]; [assumption|].
  assert (c ∈ filter (fun c => (128 <= val8 c)%Z) input) as Hin.
  { apply list_elem_of_filter. split; assumption. }
  rewrite Hnil in Hin. inversion Hin.
Qed.

(** C2 (the code departs from the claim): [out += string(input[i])] converts
    the integer [input[i]] to a string, which is the UTF-8 encoding of that
    code point. The byte [0xE9] is neither in [65 .. 94] nor passed through:
    the output is the two bytes [0xC3 0xA9], and its length is 2, not 1. *)
Theorem ToRFC1459_high_byte_expands :
  ToRFC1459 [xe9] = Some [xc3; xa9] /\
  ToRFC1459 [xe9] <> Some (FoldCase_spec [xe9]) /\
  (forall out, ToRFC1459 [xe9] = Some out -> length out <> length [xe9]).
Proof.
  split; [vm_compute; reflexivity|]. split.
  - vm_compute. discriminate.
  - intros out. vm_compute. intros [= <-]. simpl. discriminate.
Qed.

(** ** IsValidNick and IsValidUser as checks on the folded name *)

Lemma flat_map_fold_bytes_nil (n : gostring) :
  flat_map fold_bytes n = [] -> n = [].
Proof.
  destruct n as [|c n]; [reflexivity|]. simpl. intros H.
  apply app_eq_nil in H. destruct H as [H _].
  exfalso. exact (fold_bytes_nonempty c H).
Qed.

Lemma len_le_0 {A} (l : list A) : (len l <=? 0) = true <-> l = [].
Proof.
  unfold len. destruct l; simpl; split; intros H;
    try reflexivity; discriminate.
Qed.

Lemma tail_loop_check (bad : byte -> bool) (body : Z -> unit -> M (ctl unit bool))
    (c0 : byte) (t : gostring) :
  (forall i u, body i u
     = (c ← at_ (c0 :: t) i; if bad c then Some (Return false) else Some (Continue tt))) ->
  for_range 1 (len (c0 :: t)) body tt
  = Some (if forallb (fun c => negb (bad c)) t then inl tt else inr false).
Proof.
  intros Hbody.
  pose proof (for_range_check bad body (c0 :: t) 1 (length (c0 :: t))
                Hbody (Nat.le_refl _)) as H.
  simpl in H. rewrite drop_0, Nat.sub_0_r, firstn_all in H.
  rewrite <- H. reflexivity.
Qed.

Lemma IsValidNick_run (nick : gostring) :
  IsValidNick nick
  = Some (check_name nick_first (fun c => negb (nick_other_bad c))
            (flat_map fold_bytes nick)).
Proof.
  unfold IsValidNick. destruct (len nick <=? 0) eqn:E.
  - apply len_le_0 in E. subst. reflexivity.
  - rewrite ToRFC1459_run. simpl.
    destruct (flat_map fold_bytes nick) as [|c0 t] eqn:Ef.
    + apply flat_map_fold_bytes_nil in Ef. subst. discriminate.
    + change (at_ (c0 :: t) 0) with (Some c0). simpl.
      unfold nick_first.
      destruct ((val8 c0 <? 65) || (125 <? val8 c0)); simpl; [reflexivity|].
      rewrite (tail_loop_check nick_other_bad) by reflexivity. simpl.
      destruct (forallb _ t); reflexivity.
Qed.

Lemma IsValidUser_run (name : gostring) :
  IsValidUser name = Some (user_check (flat_map fold_bytes name)).
Proof.
  unfold IsValidUser. destruct (len name <=? 0) eqn:E.
  - apply len_le_0 in E. subst. reflexivity.
  - rewrite ToRFC1459_run. simpl.
    destruct (flat_map fold_bytes name) as [|c0 t] eqn:Ef.
    + apply flat_map_fold_bytes_nil in Ef. subst. discriminate.
    + change (at_ (c0 :: t) 0) with (Some c0). simpl.
      assert (forall d0 r,
        (c0' ← at_ (d0 :: r) 0;
         if ((val8 c0' <? 65) || (74 <? val8 c0'))
            && ((val8 c0' <? 97) || (122 <? val8 c0'))
            && ((val8 c0' <? 48) || (57 <? val8 c0'))
         then Some false
         else
           r' ← for_range 1 (len (d0 :: r))
                 (fun i (_ : unit) =>
                    c ← at_ (d0 :: r) i;
                    if ((val8 c <? 65) || (125 <? val8 c))
                       && ((val8 c <? 48) || (57 <? val8 c))
                       && negb (val8 c =? 45) && negb (val8 c =? 46)
                    then Some (Return false) else Some (Continue tt))
                 tt;
           match r' with
           | inr b => Some b
           | inl _ => Some true
           end)
        = Some (check_name user_first (fun c => negb (user_other_bad c)) (d0 :: r)))
        as Hbody.
      { intros d0 r. change (at_ (d0 :: r) 0) with (Some d0). simpl.
        unfold user_first.
        destruct (((val8 d0 <? 65) || (74 <? val8 d0))
                  && ((val8 d0 <? 97) || (122 <? val8 d0))
                  && ((val8 d0 <? 48) || (57 <? val8 d0))); simpl; [reflexivity|].
        rewrite (tail_loop_check user_other_bad) by reflexivity. simpl.
        destruct (forallb _ r); reflexivity. }
      destruct (val8 c0 =? 126) eqn:Etilde.
      * destruct t as [|d0 r]; [reflexivity|].
        replace (len (c0 :: d0 :: r) <? 2) with false
          by (symmetry; apply Z.ltb_ge; unfold len; simpl length; lia).
        change (slice_from (c0 :: d0 :: r) 1) with (slice_from (c0 :: d0 :: r) (Z.of_nat 1)).
        rewrite slice_from_nat by (simpl; lia). simpl. apply Hbody.
      * simpl. apply Hbody.
Qed.

(** ** The tests of the source against the rules of the specification *)

Ltac zbool :=
  repeat match goal with
    | |- context [(?a <? ?b)] => destruct (Z.ltb_spec a b)
    | |- context [(?a <=? ?b)] => destruct (Z.leb_spec a b)
    | |- context [(?a =? ?b)] => destruct (Z.eqb_spec a b)
    end; simpl.

Lemma val8_eq_iff (c d : byte) : val8 c = val8 d <-> c = d.
Proof. split; [apply val8_inj | congruence]. Qed.

Lemma nick_first_spec (c : byte) : nick_first c = true <-> nick_range c.
Proof.
  unfold nick_first, nick_range, between. zbool; split; intros; try lia; try discriminate; reflexivity.
Qed.

Lemma nick_other_spec (c : byte) :
  negb (nick_other_bad c) = true
  <-> nick_range c \/ is_digit c \/ val8 c = 0x2D.
Proof.
  unfold nick_other_bad, nick_range, is_digit, between.
  zbool; split; intros; try lia; try discriminate; reflexivity.
Qed.

Lemma user_other_spec (c : byte) :
  negb (user_other_bad c) = true
  <-> nick_range c \/ is_digit c \/ c = "-"%byte \/ c = "."%byte.
Proof.
  rewrite <- !val8_eq_iff.
  change (val8 "-") with 45. change (val8 ".") with 46.
  unfold user_other_bad, nick_range, is_digit, between.
  zbool; split; intros; try lia; try discriminate; reflexivity.
Qed.

(** The first-byte test of [IsValidUser] stops at [0x4A] where the uppercase
    letters stop at [0x5A]; on a byte outside [65 .. 94] that is the same. *)
Lemma user_first_spec (c : byte) :
  ~ between 65 94 c -> (user_first c = true <-> is_alnum c).
Proof.
  unfold user_first, is_alnum, is_letter, is_upper, is_lower, is_digit, between.
  intros Hc. zbool; split; intros; try lia; try discriminate; reflexivity.
Qed.

Lemma forallb_Forall_iff {A} (f : A -> bool) (Q : A -> Prop) (l : list A) :
  (forall c, f c = true <-> Q c) ->
  forallb f l = true <-> Forall Q l.
Proof.
  intros Hf. induction l as [|a l IH]; simpl.
  - split; [constructor | reflexivity].
  - rewrite andb_true_iff, Forall_cons, IH, Hf. reflexivity.
Qed.

Lemma check_name_spec (first rest : byte -> bool) (P Q : byte -> Prop) (f : gostring) :
  (forall c, c ∈ f -> (first c = true <-> P c)) ->
  (forall c, rest c = true <-> Q c) ->
  check_name first rest f = true
  <-> exists c0 t, f = c0 :: t /\ P c0 /\ Forall Q t.
Proof.
  intros Hfirst Hrest. destruct f as [|c0 t]; simpl.
  - split; [discriminate | intros (? & ? & [=] & _)].
  - rewrite andb_true_iff, (forallb_Forall_iff rest Q t Hrest),
      Hfirst by apply list_elem_of_here.
    split.
    + intros [? ?]. eauto.
    + intros (? & ? & [= <- <-] & ? & ?). auto.
Qed.

(** ** The folded name under both readings of the case folder

    A byte above [0x7F] fails every test of the validators, and so do the two
    bytes that [ToRFC1459] writes for it: the validators cannot tell the
    byte-wise fold from the one of the code. *)

Lemma high_pair (c : byte) :
  128 <= val8 c -> 128 <= val8 (lead_byte c) /\ 128 <= val8 (cont_byte c).
Proof.
  intros Hc. pose proof (high_bytes_stay_high c) as H.
  apply orb_true_iff in H. destruct H as [H|H].
  - apply Z.ltb_lt in H. lia.
  - apply andb_true_iff in H. destruct H as [H1 H2].
    apply Z.leb_le in H1, H2. auto.
Qed.

Lemma fold_byte_high (c : byte) : 128 <= val8 c -> fold_byte c = c.
Proof.
  intros Hc. unfold fold_byte.
  destruct (Z.leb_spec 65 (val8 c)), (Z.leb_spec (val8 c) 94); simpl; auto; lia.
Qed.

Lemma forallb_fold_agree (q : byte -> bool) (n : gostring) :
  rejects_high q ->
  forallb q (flat_map fold_bytes n) = forallb q (map fold_byte n).
Proof.
  intros Hq. induction n as [|c n IH]; simpl; [reflexivity|].
  rewrite forallb_app, IH, fold_bytes_shape. f_equal.
  destruct (Z.ltb_spec (val8 c) 128) as [|Hc]; simpl.
  - apply andb_true_r.
  - destruct (high_pair c Hc) as [H1 _].
    rewrite (Hq _ H1), (fold_byte_high c Hc), (Hq _ Hc). reflexivity.
Qed.

Lemma check_name_fold_agree (p q : byte -> bool) (n : gostring) :
  rejects_high p -> rejects_high q ->
  check_name p q (flat_map fold_bytes n) = check_name p q (map fold_byte n).
Proof.
  intros Hp Hq. destruct n as [|c n]; simpl; [reflexivity|].
  rewrite fold_bytes_shape.
  destruct (Z.ltb_spec (val8 c) 128) as [|Hc]; simpl.
  - rewrite (forallb_fold_agree q n Hq). reflexivity.
  - destruct (high_pair c Hc) as [H1 _].
    rewrite (Hp _ H1), (fold_byte_high c Hc), (Hp _ Hc). reflexivity.
Qed.

Lemma nick_first_rejects_high : rejects_high nick_first.
Proof. intros c Hc. unfold nick_first. zbool; auto; lia. Qed.

Lemma nick_other_rejects_high : rejects_high (fun c => negb (nick_other_bad c)).
Proof. intros c Hc. unfold nick_other_bad. zbool; auto; lia. Qed.

Lemma user_first_rejects_high : rejects_high user_first.
Proof. intros c Hc. unfold user_first. zbool; auto; lia. Qed.

Lemma user_other_rejects_high : rejects_high (fun c => negb (user_other_bad c)).
Proof. intros c Hc. unfold user_other_bad. zbool; auto; lia. Qed.

Lemma user_check_cons (c0 : byte) (t : gostring) :
  user_check (c0 :: t)
  = if val8 c0 =? 0x7E
    then check_name user_first (fun c => negb (user_other_bad c)) t
    else check_name user_first (fun c => negb (user_other_bad c)) (c0 :: t).
Proof. reflexivity. Qed.

Lemma user_check_fold_agree (n : gostring) :
  user_check (flat_map fold_bytes n) = user_check (map fold_byte n).
Proof.
  destruct n as [|c n]; [reflexivity|].
  pose proof (check_name_fold_agree _ _ (c :: n)
                user_first_rejects_high user_other_rejects_high) as Hall.
  pose proof (check_name_fold_agree _ _ n
                user_first_rejects_high user_other_rejects_high) as Htail.
  change (flat_map fold_bytes (c :: n))
    with (fold_bytes c ++ flat_map fold_bytes n) in *.
  change (map fold_byte (c :: n)) with (fold_byte c :: map fold_byte n) in *.
  rewrite fold_bytes_shape in *.
  destruct (Z.ltb_spec (val8 c) 128) as [|Hc].
  - change ([fold_byte c] ++ flat_map fold_bytes n)
      with (fold_byte c :: flat_map fold_bytes n) in *.
    rewrite !user_check_cons, Htail, Hall. reflexivity.
  - destruct (high_pair c Hc) as [H1 _].
    rewrite (fold_byte_high c Hc) in *.
    change ([lead_byte c; cont_byte c] ++ flat_map fold_bytes n)
      with (lead_byte c :: cont_byte c :: flat_map fold_bytes n) in *.
    rewrite !user_check_cons.
    destruct (Z.eqb_spec (val8 (lead_byte c)) 126); [lia|].
    destruct (Z.eqb_spec (val8 c) 126); [lia|].
    exact Hall.
Qed.

(** Neither fold leaves a byte in [65 .. 94]. *)
Lemma fold_byte_not_upper (c : byte) : ~ between 65 94 (fold_byte c).
Proof.
  unfold between. rewrite fold_byte_val.
  destruct (Z.leb_spec 65 (val8 c)), (Z.leb_spec (val8 c) 94); simpl; lia.
Qed.

Lemma FoldCase_spec_no_upper (n : gostring) (c : byte) :
  c ∈ FoldCase_spec n -> ~ between 65 94 c.
Proof.
  unfold FoldCase_spec. intros Hc.
  apply list_elem_of_fmap in Hc. destruct Hc as (x & -> & _).
  apply fold_byte_not_upper.
Qed.

Lemma fold_bytes_no_upper (n : gostring) (c : byte) :
  c ∈ flat_map fold_bytes n -> ~ between 65 94 c.
Proof.
  intros Hc. apply list_elem_of_In, in_flat_map in Hc. destruct Hc as (x & _ & Hc).
  rewrite fold_bytes_shape in Hc.
  destruct (Z.ltb_spec (val8 x) 128) as [|Hx].
  - destruct Hc as [<-|[]]. apply fold_byte_not_upper.
  - destruct (high_pair x Hx). unfold between.
    destruct Hc as [<-|[<-|[]]]; lia.
Qed.

(** ** IsValidNick *)

Lemma nick_check_spec (f : gostring) :
  check_name nick_first (fun c => negb (nick_other_bad c)) f = true <-> nick_spec f.
Proof.
  apply check_name_spec.
  - intros c _. apply nick_first_spec.
  - apply nick_other_spec.
Qed.

Lemma IsValidNick_true_bytewise (n : gostring) :
  IsValidNick n = Some true <-> n <> [] /\ nick_spec (FoldCase_spec n).
Proof.
  rewrite IsValidNick_run.
  rewrite check_name_fold_agree
    by (apply nick_first_rejects_high || apply nick_other_rejects_high).
  fold (FoldCase_spec n). rewrite <- nick_check_spec.
  split.
  - intros H. apply Some_eq_inv in H. split; [|exact H]. intros ->. discriminate.
  - intros [_ ->]. reflexivity.
Qed.

Lemma IsValidNick_true_folded (n : gostring) :
  IsValidNick n = Some true
  <-> n <> [] /\ exists f, ToRFC1459 n = Some f /\ nick_spec f.
Proof.
  rewrite IsValidNick_run, ToRFC1459_run. split.
  - intros H. apply Some_eq_inv in H. split; [intros ->; discriminate|].
    exists (flat_map fold_bytes n). split; [reflexivity|].
    apply nick_check_spec, H.
  - intros (_ & f & Hf & H). apply Some_eq_inv in Hf. subst f.
    apply nick_check_spec in H. rewrite H. reflexivity.
Qed.

(** C6: [IsValidNick n] is [true] exactly when [n] is non-empty and its
    case-folded form [f] has a first byte in [0x41 .. 0x7D] and only bytes in
    that range, digits or hyphens after it. This holds for [f] the byte-wise
    fold of the specification, and for [f] the string that [ToRFC1459]
    returns. *)
Theorem IsValidNick_iff (n : gostring) :
  (IsValidNick n = Some true <-> n <> [] /\ nick_spec (FoldCase_spec n)) /\
  (IsValidNick n = Some true
   <-> n <> [] /\ exists f, ToRFC1459 n = Some f /\ nick_spec f).
Proof.
  split; [apply IsValidNick_true_bytewise | apply IsValidNick_true_folded].
Qed.

(** C4 (the code departs from the claim): a leading ['^'] is folded to ['~']
    ([0x7E]), which lies above [0x7D], and the nickname is refused whatever
    follows; the comment on the test lists ['^'] among the accepted bytes. *)
Theorem IsValidNick_rejects_caret (rest : gostring) :
  IsValidNick ("^"%byte :: rest) = Some false /\
  IsValidNick (lit "^abc") = Some false.
Proof.
  split; [|vm_compute; reflexivity].
  rewrite IsValidNick_run. reflexivity.
Qed.

(** The other special first bytes are accepted, as C4 says. *)
Lemma IsValidNick_accepts_special (c : byte) (rest : gostring) :
  c ∈ lit "_\[]{}|" -> Forall is_letter rest ->
  IsValidNick (c :: rest) = Some true.
Proof.
  intros Hc Hrest. apply IsValidNick_true_bytewise.
  split; [discriminate|].
  exists (fold_byte c), (FoldCase_spec rest). split; [reflexivity|]. split.
  - unfold lit in Hc. simpl in Hc.
    repeat (apply elem_of_cons in Hc; destruct Hc as [->|Hc]; [vm_compute; split; discriminate|]).
    inversion Hc.
  - unfold FoldCase_spec. apply Forall_fmap.
    eapply Forall_impl; [exact Hrest|]. intros x Hx. simpl. left.
    unfold nick_range, between. rewrite fold_byte_val.
    unfold is_letter, is_upper, is_lower, between in Hx.
    destruct (Z.leb_spec 65 (val8 x)), (Z.leb_spec (val8 x) 94); simpl; lia.
Qed.

(** ** IsValidUser *)

Lemma user_check_spec (f : gostring) :
  (forall c, c ∈ f -> ~ between 65 94 c) ->
  user_check f = true <-> user_spec f.
Proof.
  intros Hf. unfold user_check, user_spec, strip_tilde.
  destruct f as [|c0 t].
  - split; [discriminate | intros (? & ? & [=] & _)].
  - destruct (decide (c0 = "~"%byte)) as [->|Hne].
    + change (val8 "~" =? 126) with true. cbv iota.
      apply check_name_spec.
      * intros c Hc. apply user_first_spec, Hf. apply list_elem_of_further, Hc.
      * apply user_other_spec.
    + destruct (Z.eqb_spec (val8 c0) 126) as [E|E].
      { exfalso. apply Hne, val8_inj. exact E. }
      apply check_name_spec.
      * intros c Hc. apply user_first_spec, Hf, Hc.
      * apply user_other_spec.
Qed.

(** C7: [IsValidUser u] is [true] exactly when [u] is non-empty and its
    case-folded form, once a leading ['~'] is dropped, is non-empty, starts
    with an alphanumeric byte and continues with bytes in [0x41 .. 0x7D],
    digits, hyphens or periods. This holds for the byte-wise fold of the
    specification and for the string that [ToRFC1459] returns. *)
Theorem IsValidUser_iff (u : gostring) :
  (IsValidUser u = Some true <-> u <> [] /\ user_spec (FoldCase_spec u)) /\
  (IsValidUser u = Some true
   <-> u <> [] /\ exists f, ToRFC1459 u = Some f /\ user_spec f).
Proof.
  rewrite IsValidUser_run, ToRFC1459_run. split.
  - rewrite user_check_fold_agree. fold (FoldCase_spec u).
    rewrite <- (user_check_spec _ (FoldCase_spec_no_upper u)).
    split.
    + intros [= H]. split; [|exact H]. intros ->. discriminate.
    + intros [_ ->]. reflexivity.
  - split.
    + intros [= H]. split; [intros ->; discriminate|].
      exists (flat_map fold_bytes u). split; [reflexivity|].
      apply (user_check_spec _ (fold_bytes_no_upper u)), H.
    + intros (_ & f & [= <-] & H).
      apply (user_check_spec _ (fold_bytes_no_upper u)) in H. rewrite H. reflexivity.
Qed.

(** C10: the fold turns a leading ['^'] into ['~'] before the tilde test, so
    ['^' + s] and ['~' + s] get the same verdict, and ["^abc"] is accepted. *)
Theorem IsValidUser_caret_as_tilde (s : gostring) :
  IsValidUser ("^"%byte :: s) = IsValidUser ("~"%byte :: s) /\
  IsValidUser (lit "^abc") = Some true.
Proof.
  split; [|vm_compute; reflexivity].
  rewrite !IsValidUser_run. reflexivity.
Qed.

(** ** IsValidChannel *)

Lemma IsValidChannel_run (channel : gostring) :
  IsValidChannel channel = Some (channel_check channel).
Proof.
  unfold IsValidChannel, channel_check.
  destruct channel as [|c0 t]; [reflexivity|].
  destruct ((len (c0 :: t) <=? 1) || (50 <? len (c0 :: t))); simpl; [reflexivity|].
  change (at_ (c0 :: t) 0) with (Some c0). simpl.
  destruct (IndexByte [x21; x23; x26; x2a; x2b] c0 =? -1); simpl; [reflexivity|].
  assert (for_range 1 (len (c0 :: t))
            (fun i (_ : unit) =>
               ci ← at_ (c0 :: t) i;
               if negb (IndexByte [x00; x07; x0d; x0a; x20; x2c; x3a] ci =? -1)
               then Some (Return false) else Some (Continue tt)) tt
          = Some (if forallb (fun c => negb (octet_bad c)) t
                  then inl tt else inr false)) as Hoctets
    by (apply (tail_loop_check octet_bad); reflexivity).
  destruct (val8 c0 =? 33).
  - destruct (Z.ltb_spec (len (c0 :: t)) 7) as [|Hlen]; simpl; [reflexivity|].
    pose proof (for_range_check id_bad
      (fun i (_ : unit) =>
         ci ← at_ (c0 :: t) i;
         if ((val8 ci <? 48) || (57 <? val8 ci)) && ((val8 ci <? 65) || (90 <? val8 ci))
         then Some (Return false) else Some (Continue tt))
      (c0 :: t) 1 6 ltac:(reflexivity)) as Hid.
    change (Z.of_nat 1) with 1 in Hid. change (Z.of_nat 6) with 6 in Hid.
    simpl in Hid. rewrite drop_0 in Hid.
    unfold len in Hlen. simpl length in Hlen.
    rewrite Hid by lia. simpl.
    destruct (forallb (fun c => negb (id_bad c)) (take 5 t)); simpl; [|reflexivity].
    rewrite Hoctets. simpl. destruct (forallb _ t); reflexivity.
  - simpl. rewrite Hoctets. simpl. destruct (forallb _ t); reflexivity.
Qed.

Lemma IndexByte_from_spec (b : gostring) (c : byte) (i : Z) :
  0 <= i -> (IndexByte_from b c i = -1 <-> c ∉ b).
Proof.
  revert i. induction b as [|x b IH]; intros i Hi; simpl.
  - split; [intros _ H; inversion H | reflexivity].
  - rewrite not_elem_of_cons. destruct (Byte.eqb x c) eqn:E.
    + apply byte_eqb_eq in E. subst. split; [lia | intros [? _]; congruence].
    + apply byte_eqb_neq in E. rewrite IH by lia. intuition congruence.
Qed.

Lemma IndexByte_absent (b : gostring) (c : byte) :
  (IndexByte b c =? -1) = true <-> c ∉ b.
Proof.
  rewrite Z.eqb_eq. apply IndexByte_from_spec. lia.
Qed.

Lemma IndexByte_present (b : gostring) (c : byte) :
  negb (IndexByte b c =? -1) = true <-> c ∈ b.
Proof.
  rewrite negb_true_iff, <- not_true_iff_false, IndexByte_absent.
  destruct (decide (c ∈ b)); intuition.
Qed.

Lemma id_ok_spec (c : byte) : negb (id_bad c) = true <-> is_digit c \/ is_upper c.
Proof.
  unfold id_bad, is_digit, is_upper, between.
  zbool; split; intros; try lia; try discriminate; reflexivity.
Qed.

Lemma octet_ok_spec (c : byte) :
  negb (octet_bad c) = true
  <-> c ∉ [x00; x07; x0d; x0a; " "%byte; ","%byte; ":"%byte].
Proof.
  unfold octet_bad. rewrite negb_involutive. apply IndexByte_absent.
Qed.

Lemma Forall_tail_positions {A} (Q : A -> Prop) (c0 : A) (t : list A) :
  Forall Q t <-> forall i b, (1 <= i)%nat -> (c0 :: t) !! i = Some b -> Q b.
Proof.
  rewrite Forall_lookup. split.
  - intros H [|i] b Hi Hb; [lia|]. exact (H i b Hb).
  - intros H i b Hb. apply (H (Datatypes.S i) b); [lia | exact Hb].
Qed.

Lemma Forall_id_positions {A} (Q : A -> Prop) (c0 : A) (t : list A) :
  (6 <= length t)%nat ->
  Forall Q (take 5 t)
  <-> forall i, (1 <= i <= 5)%nat -> exists b, (c0 :: t) !! i = Some b /\ Q b.
Proof.
  intros Hlen. rewrite Forall_lookup. split.
  - intros H [|i] Hi; [lia|].
    destruct (lookup_lt_is_Some_2 t i ltac:(lia)) as [b Hb].
    exists b. split; [exact Hb|].
    apply (H i b). rewrite lookup_take_lt by lia. exact Hb.
  - intros H i b Hb.
    apply lookup_take_Some in Hb. destruct Hb as [Hb Hi].
    destruct (H (Datatypes.S i) ltac:(lia)) as (b' & Hb' & HQ).
    simpl in Hb'. congruence.
Qed.

(** C5: [IsValidChannel c] is [true] exactly when the length is in
    [2 .. 50], the first byte is one of [! # & * +], a leading [!] comes with
    a length of at least 7 and five digits or uppercase letters at positions
    1 to 5, and no byte from position 1 on is NUL, BELL, CR, LF, space, comma
    or colon. *)
Theorem IsValidChannel_iff (c : gostring) :
  IsValidChannel c = Some true <-> channel_spec c.
Proof.
  rewrite IsValidChannel_run. unfold channel_spec, channel_check.
  destruct c as [|c0 t].
  - split; [discriminate|]. intros [Hlen _]. unfold len in Hlen. simpl in Hlen. lia.
  - rewrite <- (Forall_tail_positions
                  (fun b => b ∉ [x00; x07; x0d; x0a; " "%byte; ","%byte; ":"%byte]) c0 t).
    rewrite <- (forallb_Forall_iff _ _ t octet_ok_spec).
    assert (Hfirst : negb (IndexByte [x21; x23; x26; x2a; x2b] c0 =? -1) = true
                     <-> exists c1, (c0 :: t) !! 0%nat = Some c1 /\ c1 ∈ lit "!#&*+").
    { rewrite IndexByte_present. simpl. split.
      - intros H. exists c0. split; [reflexivity | exact H].
      - intros (c1 & [= <-] & H). exact H. }
    rewrite <- Hfirst. clear Hfirst.
    change ((c0 :: t) !! 0%nat) with (Some c0).
    set (n := len (c0 :: t)).
    assert (Hn : n = Z.of_nat (length t) + 1) by (unfold n, len; simpl length; lia).
    clearbody n.
    destruct (Z.leb_spec n 1) as [Hlo|Hlo];
      [simpl; split; [discriminate | intros [? _]; lia]|].
    destruct (Z.ltb_spec 50 n) as [Hhi|Hhi];
      [simpl; split; [discriminate | intros [? _]; lia]|].
    cbn [orb negb andb].
    destruct (negb (IndexByte [x21; x23; x26; x2a; x2b] c0 =? -1));
      [|simpl; split; [discriminate | intros (_ & [=] & _)]].
    cbn [andb].
    destruct (forallb (fun c => negb (octet_bad c)) t);
      [|rewrite andb_false_r; split; [discriminate | intros (_ & _ & _ & [=])]].
    rewrite andb_true_r.
    destruct (Z.eqb_spec (val8 c0) 33) as [E|E].
    + assert (c0 = "!"%byte) as -> by (apply val8_inj; exact E).
      destruct (Z.ltb_spec n 7) as [Hlt|Hge].
      * cbn [negb andb]. split; [discriminate|]. intros (_ & _ & H & _).
        destruct (H eq_refl) as [H7 _]. lia.
      * cbn [negb andb].
        assert (Hid : forallb (fun c => negb (id_bad c)) (take 5 t) = true
                      <-> forall i, (1 <= i <= 5)%nat ->
                            exists b, ("!"%byte :: t) !! i = Some b
                                      /\ (is_digit b \/ is_upper b)).
        { rewrite <- (Forall_id_positions _ "!"%byte t) by lia.
          apply forallb_Forall_iff, id_ok_spec. }
        split.
        -- intros [= H]. split; [lia|]. split; [reflexivity|]. split; [|trivial].
           intros _. split; [lia|]. apply Hid, H.
        -- intros (_ & _ & H & _). destruct (H eq_refl) as [_ H'].
           apply Hid in H'. rewrite H'. reflexivity.
    + split; [|reflexivity]. intros _.
      split; [lia|]. split; [reflexivity|]. split; [|trivial].
      intros [= ->]. exfalso. apply E. reflexivity.
Qed.

(** ** Substrings, Index and Replace *)

Lemma HasPrefix_spec (s p : gostring) :
  HasPrefix s p = true <-> exists v, s = p ++ v.
Proof.
  revert s. induction p as [|x p IH]; intros [|c s]; simpl.
  - split; [intros _; exists []; reflexivity | reflexivity].
  - split; [intros _; exists (c :: s); reflexivity | reflexivity].
  - split; [discriminate | intros (v & [=])].
  - rewrite andb_true_iff, byte_eqb_eq, IH. split.
    + intros (-> & v & ->). eauto.
    + intros (v & [= -> ->]). eauto.
Qed.

Lemma Index_from_spec (s sub : gostring) (i : Z) :
  (Index_from s sub i = -1 /\ ~ occurs sub s) \/
  (exists u, first_at sub s u /\ Index_from s sub i = i + len u).
Proof.
  revert i. induction s as [|c s IH]; intros i.
  - simpl. destruct sub as [|x sub]; simpl.
    + right. exists []. split; [|unfold len; simpl; lia].
      split; [exists []; reflexivity | intros; simpl; lia].
    + left. split; [reflexivity|]. intros (u & v & H).
      destruct u; discriminate.
  - cbn [Index_from]. destruct (HasPrefix (c :: s) sub) eqn:E.
    + right. exists []. split; [|unfold len; simpl; lia].
      split; [apply HasPrefix_spec, E | intros; simpl; lia].
    + assert (Hnopre : forall v, c :: s <> sub ++ v).
      { intros v Hv. apply not_true_iff_false in E. apply E, HasPrefix_spec. eauto. }
      destruct (IH (i + 1)) as [[Hi Hno]|(u & [(v & Hv) Hmin] & Hi)].
      * left. split; [exact Hi|]. intros (u & v & H).
        destruct u as [|d u]; [exact (Hnopre _ H)|].
        injection H as _ H. apply Hno. exists u, v. exact H.
      * right. exists (c :: u). split; [split|].
        -- exists v. simpl. rewrite Hv. reflexivity.
        -- intros u' v' H. destruct u' as [|d u']; [destruct (Hnopre _ H)|].
           injection H as _ H. specialize (Hmin _ _ H). simpl. lia.
        -- rewrite Hi. unfold len. simpl length. lia.
Qed.

Lemma Index_cases (s sub : gostring) :
  (Index s sub = -1 /\ ~ occurs sub s) \/
  (exists u, first_at sub s u /\ Index s sub = len u).
Proof.
  unfold Index. destruct (Index_from_spec s sub 0) as [H|(u & Hu & H)]; [left; exact H|].
  right. exists u. split; [exact Hu | lia].
Qed.

Lemma take_drop_at {A} (u w v : list A) :
  take (Z.to_nat (len u)) (u ++ w ++ v) = u /\
  drop (Z.to_nat (len u + len w)) (u ++ w ++ v) = v.
Proof.
  unfold len. split.
  - rewrite Nat2Z.id, take_app_length. reflexivity.
  - replace (Z.to_nat (Z.of_nat (length u) + Z.of_nat (length w)))
      with (length u + length w)%nat by lia.
    rewrite <- drop_drop, drop_app_length, drop_app_length. reflexivity.
Qed.

Section Replace.
Variables old new : gostring.
Hypothesis old_nonempty : old <> [].

Lemma Index_nil_old : Index [] old = -1.
Proof. destruct old; [congruence | reflexivity]. Qed.

Lemma Replace_rounds_enough (k1 k2 : nat) (s : gostring) :
  (length s <= k1)%nat -> (length s <= k2)%nat ->
  Replace_rounds k1 s old new = Replace_rounds k2 s old new.
Proof.
  revert k2 s. induction k1 as [|k1 IH]; intros k2 s H1 H2.
  - destruct s; [|simpl in H1; lia].
    destruct k2; simpl; [reflexivity|]. rewrite Index_nil_old. reflexivity.
  - destruct k2 as [|k2].
    + destruct s; [|simpl in H2; lia]. simpl. rewrite Index_nil_old. reflexivity.
    + simpl. destruct (Index_cases s old) as [[-> _]|(u & [(v & ->) _] & ->)];
        [reflexivity|].
      destruct (Z.ltb_spec (len u) 0) as [Hneg|_];
        [pose proof (len_nonneg u); lia|].
      destruct (take_drop_at u old v) as [-> ->].
      do 2 f_equal. rewrite !length_app in H1, H2.
      assert (0 < length old)%nat by (destruct old; [congruence | simpl; lia]).
      apply IH; lia.
Qed.

(** All instances replaced, as one recursion on the first instance. *)
Lemma Replace_all_cases (s : gostring) :
  old <> new ->
  (~ occurs old s /\ Replace s old new (-1) = s) \/
  (exists u v, s = u ++ old ++ v /\ first_at old s u /\
     Replace s old new (-1) = u ++ new ++ Replace v old new (-1)).
Proof.
  intros Hne. unfold Replace.
  assert (bytes_eqb old new = false) as ->.
  { apply not_true_iff_false. rewrite bytes_eqb_eq. exact Hne. }
  cbn [orb Z.eqb Z.ltb Z.compare].
  rewrite (Replace_rounds_enough (length s) (Datatypes.S (length s)) s) by lia.
  cbn [Replace_rounds].
  destruct (Index_cases s old) as [[Hi Hno]|(u & [(v & Hv) Hmin] & Hi)]; rewrite Hi.
  - left. split; [exact Hno | reflexivity].
  - right. exists u, v. split; [exact Hv|]. split; [split; eauto|].
    destruct (Z.ltb_spec (len u) 0) as [Hneg|_];
      [pose proof (len_nonneg u); lia|].
    subst s. destruct (take_drop_at u old v) as [-> ->].
    do 2 f_equal. apply Replace_rounds_enough; rewrite ?length_app; lia.
Qed.
End Replace.

Lemma Replace_all_ind (old new : gostring) (P : gostring -> gostring -> Prop) :
  old <> [] -> old <> new ->
  (forall s, ~ occurs old s -> P s s) ->
  (forall u v r, first_at old (u ++ old ++ v) u -> P v r ->
                 P (u ++ old ++ v) (u ++ new ++ r)) ->
  forall s, P s (Replace s old new (-1)).
Proof.
  intros Hold Hne Hnone Hstep s.
  remember (length s) as n eqn:Hn. revert s Hn.
  induction n as [n IH] using lt_wf_ind. intros s Hn.
  destruct (Replace_all_cases old new Hold s Hne)
    as [[Hno ->]|(u & v & -> & Hfirst & ->)].
  - apply Hnone, Hno.
  - apply Hstep; [exact Hfirst|].
    apply (IH (length v)); [|reflexivity].
    rewrite Hn, !length_app.
    assert (0 < length old)%nat by (destruct old; [congruence | simpl; lia]).
    lia.
Qed.

Lemma occurs_single (b : byte) (s : gostring) : occurs [b] s <-> b ∈ s.
Proof.
  unfold occurs. split.
  - intros (u & v & ->). apply elem_of_app. right. apply list_elem_of_here.
  - intros H. apply list_elem_of_split in H. exact H.
Qed.

Lemma occurs_head (x : byte) (sub s : gostring) : occurs (x :: sub) s -> x ∈ s.
Proof.
  intros (u & v & ->). apply elem_of_app. right. apply list_elem_of_here.
Qed.

Lemma first_at_single (b : byte) (u v : gostring) :
  first_at [b] (u ++ [b] ++ v) u -> b ∉ u.
Proof.
  intros [_ Hmin] Hin.
  apply list_elem_of_split in Hin. destruct Hin as (u1 & u2 & ->).
  specialize (Hmin u1 (u2 ++ [b] ++ v)).
  rewrite <- !app_assoc in Hmin. specialize (Hmin eq_refl).
  rewrite length_app in Hmin. simpl in Hmin. lia.
Qed.

Lemma filter_absent (b : byte) (s : gostring) :
  b ∉ s -> filter (fun x => x <> b) s = s.
Proof.
  intros Hb. induction s as [|c s IH]; [reflexivity|].
  apply not_elem_of_cons in Hb. destruct Hb as [Hc Hs].
  rewrite filter_cons_True by congruence. rewrite IH by exact Hs. reflexivity.
Qed.

(** Removing a one-byte string removes every instance of the byte. *)
Lemma Replace_single_byte (b : byte) (s : gostring) :
  Replace s [b] [] (-1) = filter (fun x => x <> b) s.
Proof.
  apply (Replace_all_ind [b] [] (fun s r => r = filter (fun x => x <> b) s));
    try discriminate.
  - intros s' Hno. symmetry. apply filter_absent. rewrite <- occurs_single. exact Hno.
  - intros u v r Hfirst ->. apply first_at_single in Hfirst.
    rewrite !filter_app, (filter_absent b u Hfirst).
    rewrite filter_cons_False by (intros H; apply H; reflexivity).
    reflexivity.
Qed.

(** ** StripRaw *)

Lemma StripRaw_run (text : gostring) :
  StripRaw text = Some (foldl (fun t ci => Replace t (val ci) [] (-1)) text codes).
Proof.
  unfold StripRaw.
  rewrite (for_range_foldl (fun t ci => Replace t (val ci) [] (-1))); [reflexivity|].
  intros i a s Hi. rewrite at_nat, Hi. reflexivity.
Qed.

Lemma foldl_filter_absent (bs s : gostring) (x : byte) :
  x ∈ foldl (fun t b => filter (fun y => y <> b) t) s bs -> x ∈ s /\ x ∉ bs.
Proof.
  revert s. induction bs as [|b bs IH]; intros s; simpl.
  - intros H. split; [exact H | apply not_elem_of_nil].
  - intros H. apply IH in H. destruct H as [H Hbs].
    apply list_elem_of_filter in H. destruct H as [Hne Hs].
    split; [exact Hs|]. apply not_elem_of_cons. split; assumption.
Qed.

Lemma foldl_Replace_singles (cs : list ircFmtCode) (bs t : gostring) :
  map val cs = map (fun b => [b]) bs ->
  foldl (fun t ci => Replace t (val ci) [] (-1)) t cs
  = foldl (fun t b => filter (fun y => y <> b) t) t bs.
Proof.
  revert bs t. induction cs as [|ci cs IH]; intros [|b bs] t H; try discriminate.
  - reflexivity.
  - injection H as Hci Hcs. cbn [foldl]. rewrite Hci, Replace_single_byte.
    apply IH, Hcs.
Qed.

Lemma codes_end_with_singles :
  map val (drop 16 codes) = map (fun b => [b]) control_bytes.
Proof. vm_compute. reflexivity. Qed.

Lemma StripRaw_no_control_byte (text : gostring) (b : byte) :
  b ∈ control_bytes ->
  b ∉ foldl (fun t ci => Replace t (val ci) [] (-1)) text codes.
Proof.
  intros Hb Hin.
  rewrite <- (take_drop 16 codes), foldl_app in Hin.
  rewrite (foldl_Replace_singles _ control_bytes _ codes_end_with_singles) in Hin.
  apply foldl_filter_absent in Hin.
  destruct Hin as [_ Hin]. exact (Hin Hb).
Qed.

Lemma codes_start_with_control_byte (ci : ircFmtCode) :
  ci ∈ codes -> exists h rest, val ci = h :: rest /\ h ∈ control_bytes.
Proof.
  intros Hci. unfold codes in Hci.
  repeat (apply elem_of_cons in Hci;
          destruct Hci as [->|Hci];
          [eexists _, _; split; [reflexivity|]; unfold control_bytes;
           repeat (first [apply list_elem_of_here | apply list_elem_of_further])|]).
  inversion Hci.
Qed.

(** C8: the output of [StripRaw] contains no instance of the value of any
    table entry, be it one that survived or one that the removals put
    together. *)
Theorem StripRaw_strips_all (text : gostring) :
  exists out, StripRaw text = Some out /\
    forall ci, ci ∈ codes -> ~ occurs (val ci) out.
Proof.
  rewrite StripRaw_run. eexists. split; [reflexivity|].
  intros ci Hci Hocc.
  destruct (codes_start_with_control_byte ci Hci) as (h & rest & Hval & Hh).
  rewrite Hval in Hocc. apply occurs_head in Hocc.
  revert Hocc. apply StripRaw_no_control_byte, Hh.
Qed.

(** ** Fmt and TrimFmt as folds over the table *)

Lemma for_elems {A S R} (g : A -> S -> ctl S R) (body : Z -> S -> M (ctl S R))
    (l1 l2 : list A) (s : S) :
  (forall i a s, (l1 ++ l2) !! i = Some a -> body (Z.of_nat i) s = Some (g a s)) ->
  for_ (length l2) (len l1) body s = Some (run_elems g l2 s).
Proof.
  intros Hbody. revert l1 s Hbody.
  induction l2 as [|a l2 IH]; intros l1 s Hbody; simpl; [reflexivity|].
  unfold len. rewrite (Hbody (length l1) a s); simpl.
  - destruct (g a s) as [s'| |]; try reflexivity.
    specialize (IH (l1 ++ [a]) s').
    unfold len in IH. rewrite length_app in IH. simpl in IH.
    replace (Z.of_nat (length l1) + 1) with (Z.of_nat (length l1 + 1)) by lia.
    apply IH. intros i b s''. rewrite <- app_assoc. apply Hbody.
  - rewrite lookup_app_r by lia. rewrite Nat.sub_diag. reflexivity.
Qed.

Lemma for_range_elems {A S R} (g : A -> S -> ctl S R) (body : Z -> S -> M (ctl S R))
    (l : list A) (s : S) :
  (forall i a s, l !! i = Some a -> body (Z.of_nat i) s = Some (g a s)) ->
  for_range 0 (len l) body s = Some (run_elems g l s).
Proof.
  intros Hbody. unfold for_range.
  replace (Z.to_nat (len l - 0)) with (length l) by (unfold len; lia).
  apply (for_elems g body [] l s Hbody).
Qed.

Lemma scan_more_run (text : gostring) : scan_more text = Some (has_brace text).
Proof.
  unfold scan_more.
  rewrite (for_range_elems
             (fun c (more : bool) =>
                if val8 c =? 0x7B then Break true else Continue more)).
  - simpl. f_equal. unfold has_brace.
    rewrite <- (orb_false_r (existsb _ text)). generalize false.
    induction text as [|c text IH]; intros m; simpl; [reflexivity|].
    destruct (val8 c =? 123); simpl; [reflexivity | apply IH].
  - intros i a s Hi. rewrite at_nat, Hi. simpl.
    destruct (val8 a =? 123); reflexivity.
Qed.

Lemma sweep_run (subst : ircFmtCode -> gostring) (text : gostring) :
  sweep subst text = Some (sweep_entries subst codes text).
Proof.
  unfold sweep.
  rewrite (for_range_elems
             (fun ci t =>
                let t' := sweep_entry subst t ci in
                if negb (has_brace t') then Return t' else Continue t')).
  - generalize codes. intros cs. revert text.
    induction cs as [|ci cs IH]; intros text; simpl; [reflexivity|].
    destruct (has_brace (sweep_entry subst text ci)); simpl; [apply IH | reflexivity].
  - intros i ci t Hi. rewrite at_nat, Hi. cbn [mbind option_bind].
    rewrite (for_range_foldl
               (fun t alias => Replace t (token alias) (subst ci) (-1))).
    + simpl. rewrite scan_more_run. simpl.
      fold (sweep_entry subst t ci).
      destruct (has_brace (sweep_entry subst t ci)); reflexivity.
    + intros j a s Hj. rewrite at_nat, Hj. reflexivity.
Qed.

Lemma Fmt_run (text : gostring) : Fmt text = Some (sweep_entries val codes text).
Proof. apply sweep_run. Qed.

Lemma TrimFmt_run (text : gostring) :
  TrimFmt text = Some (sweep_entries (fun _ => []) codes text).
Proof. apply sweep_run. Qed.

(** Where an instance of [t] in [u ++ r] can lie: inside [u], inside [r], or
    across the seam. *)
Lemma occurs_app_cases (t u r : gostring) :
  occurs t (u ++ r) ->
  occurs t u \/ occurs t r \/
  exists p q, t = p ++ q /\ p <> [] /\ q <> [] /\
              (exists x, u = x ++ p) /\ (exists y, r = q ++ y).
Proof.
  intros (x & y & H).
  apply app_eq_inv in H. destruct H as [(k & -> & H)|(k & -> & ->)].
  - symmetry in H. apply app_eq_inv in H. destruct H as [(k' & -> & ->)|(k' & -> & ->)].
    + left. exists x, k'. reflexivity.
    + destruct k as [|c k]; [right; left; exists [], y; reflexivity|].
      destruct k' as [|d k'].
      * left. exists x, []. rewrite !app_nil_r. reflexivity.
      * right. right. exists (c :: k), (d :: k').
        repeat split; try discriminate; eauto.
  - right. left. exists k, y. reflexivity.
Qed.

Lemma first_at_not_before (sub u v : gostring) :
  sub <> [] -> first_at sub (u ++ sub ++ v) u -> ~ occurs sub u.
Proof.
  intros Hsub [_ Hmin] (u1 & u2 & ->).
  specialize (Hmin u1 (u2 ++ sub ++ v)).
  rewrite <- !app_assoc in Hmin. specialize (Hmin eq_refl).
  rewrite !length_app in Hmin.
  assert (0 < length sub)%nat by (destruct sub; [congruence | simpl; lia]).
  lia.
Qed.

(** ** Tokens *)

Lemma token_cons (a : gostring) : token a = "{"%byte :: a ++ ["}"%byte].
Proof. reflexivity. Qed.

Lemma token_nonempty (a : gostring) : token a <> [].
Proof. discriminate. Qed.

Lemma has_brace_spec (t : gostring) : has_brace t = true <-> "{"%byte ∈ t.
Proof.
  unfold has_brace. induction t as [|c t IH]; simpl.
  - split; [discriminate | intros H; inversion H].
  - rewrite orb_true_iff, IH, elem_of_cons, Z.eqb_eq.
    change 123 with (val8 "{"). rewrite val8_eq_iff.
    split; intros [H|H]; auto.
Qed.

Lemma strip_absent (t a : gostring) : ~ occurs (token a) t -> strip t a = t.
Proof.
  intros Hno. unfold strip.
  destruct (Replace_all_cases (token a) [] (token_nonempty a) t (token_nonempty a))
    as [[_ H]|(u & v & -> & _ & _)]; [exact H|].
  exfalso. apply Hno. exists u, v. reflexivity.
Qed.

Lemma strip_no_brace (t a : gostring) : has_brace t = false -> strip t a = t.
Proof.
  intros Hb. apply strip_absent. intros Hocc.
  apply not_true_iff_false in Hb. apply Hb, has_brace_spec.
  rewrite token_cons in Hocc. exact (occurs_head _ _ _ Hocc).
Qed.

Lemma foldl_strip_no_brace (t : gostring) (l : list gostring) :
  has_brace t = false -> foldl strip t l = t.
Proof.
  intros Hb. induction l as [|a l IH]; simpl; [reflexivity|].
  rewrite strip_no_brace by exact Hb. exact IH.
Qed.

Lemma foldl_strip_absent (t : gostring) (l : list gostring) :
  (forall a, a ∈ l -> ~ occurs (token a) t) -> foldl strip t l = t.
Proof.
  intros H. induction l as [|a l IH]; simpl; [reflexivity|].
  rewrite strip_absent by (apply H, list_elem_of_here).
  apply IH. intros b Hb. apply H, list_elem_of_further, Hb.
Qed.

(** The early exit of [TrimFmt] is not observable: the result is that of
    removing every alias of the table in order. *)
Lemma sweep_entries_strip (cs : list ircFmtCode) (text : gostring) :
  sweep_entries (fun _ => []) cs text = foldl strip text (flat_map aliases cs).
Proof.
  revert text. induction cs as [|ci cs IH]; intros text; simpl; [reflexivity|].
  rewrite foldl_app. unfold sweep_entry. fold strip.
  destruct (has_brace (foldl strip text (aliases ci))) eqn:E.
  - apply IH.
  - symmetry. apply foldl_strip_no_brace, E.
Qed.

Lemma TrimFmt_fold (text : gostring) :
  TrimFmt text = Some (foldl strip text all_aliases).
Proof. rewrite TrimFmt_run, sweep_entries_strip. reflexivity. Qed.

(** ** Texts without a brace inside a brace *)

Lemma brace_state_app (o : bool) (a b : gostring) :
  brace_state o (a ++ b) = brace_state (brace_state o a) b.
Proof. apply foldl_app. Qed.

Lemma flat_from_app (o : bool) (a b : gostring) :
  flat_from o (a ++ b) = flat_from o a && flat_from (brace_state o a) b.
Proof.
  revert o. induction a as [|c a IH]; intros o; simpl; [reflexivity|].
  rewrite IH, andb_assoc. reflexivity.
Qed.

Lemma plain_cons (c : byte) (a : gostring) :
  plain (c :: a) <-> c <> "{"%byte /\ c <> "}"%byte /\ plain a.
Proof.
  unfold plain. rewrite !not_elem_of_cons. intuition congruence.
Qed.

Lemma plain_scan (o : bool) (a : gostring) :
  plain a -> brace_state o a = o /\ flat_from o a = true.
Proof.
  induction a as [|c a IH]; intros Ha; [split; reflexivity|].
  apply plain_cons in Ha. destruct Ha as (H1 & H2 & Ha).
  unfold brace_state in *. simpl. unfold step_brace.
  destruct (decide (c = "{"%byte)); [congruence|].
  destruct (decide (c = "}"%byte)); [congruence|].
  simpl. apply IH, Ha.
Qed.

Lemma token_scan (o : bool) (a : gostring) :
  plain a ->
  brace_state o (token a) = false /\ flat_from o (token a) = negb o.
Proof.
  intros Ha. rewrite token_cons.
  change ("{"%byte :: a ++ ["}"%byte]) with (["{"%byte] ++ a ++ ["}"%byte]).
  rewrite !brace_state_app, !flat_from_app.
  change (brace_state o ["{"%byte]) with true.
  destruct (plain_scan true a Ha) as [-> ->].
  split; [reflexivity|]. simpl. rewrite !andb_true_r. reflexivity.
Qed.

(** [brace_flat] in words: the text cannot be cut into [u ++ "{" ++ m ++ "{" ++ v]
    with no ['}'] in [m]. *)
Lemma no_close_stays_open (m : gostring) :
  "}"%byte ∉ m -> brace_state true m = true.
Proof.
  induction m as [|c m IH]; intros Hm; [reflexivity|].
  apply not_elem_of_cons in Hm. destruct Hm as [Hc Hm].
  unfold brace_state in *. simpl. unfold step_brace.
  destruct (decide (c = "{"%byte)); [apply IH, Hm|].
  destruct (decide (c = "}"%byte)); [congruence | apply IH, Hm].
Qed.

Lemma flat_from_false_inv (o : bool) (s : gostring) :
  flat_from o s = false ->
  (o = true /\ exists m v, s = m ++ "{"%byte :: v /\ "}"%byte ∉ m) \/
  (exists u m v, s = u ++ "{"%byte :: m ++ "{"%byte :: v /\ "}"%byte ∉ m).
Proof.
  revert o. induction s as [|c s IH]; intros o H; [discriminate|].
  simpl in H. unfold step_brace in H.
  destruct (decide (c = "{"%byte)) as [->|Hopen].
  - destruct o.
    + left. split; [reflexivity|]. exists [], s. split; [reflexivity|].
      apply not_elem_of_nil.
    + right. simpl in H. destruct (IH true H) as [(_ & m & v & -> & Hm)|(u & m & v & -> & Hm)].
      * exists [], m, v. split; [reflexivity | exact Hm].
      * exists ("{"%byte :: u), m, v. split; [reflexivity | exact Hm].
  - simpl in H. destruct (decide (c = "}"%byte)) as [->|Hclose].
    + right. destruct (IH false H) as [(Ho & _)|(u & m & v & -> & Hm)]; [discriminate|].
      exists ("}"%byte :: u), m, v. split; [reflexivity | exact Hm].
    + destruct (IH o H) as [(Ho & m & v & -> & Hm)|(u & m & v & -> & Hm)].
      * left. split; [exact Ho|]. exists (c :: m), v. split; [reflexivity|].
        apply not_elem_of_cons. split; [congruence | exact Hm].
      * right. exists (c :: u), m, v. split; [reflexivity | exact Hm].
Qed.

Lemma brace_flat_iff (s : gostring) :
  brace_flat s
  <-> ~ exists u m v, s = u ++ "{"%byte :: m ++ "{"%byte :: v /\ "}"%byte ∉ m.
Proof.
  unfold brace_flat. split.
  - intros H (u & m & v & -> & Hm).
    change (u ++ "{"%byte :: m ++ "{"%byte :: v)
      with (u ++ ["{"%byte] ++ m ++ "{"%byte :: v) in H.
    rewrite !flat_from_app in H.
    change (brace_state (brace_state false u) ["{"%byte]) with true in H.
    rewrite (no_close_stays_open m Hm) in H. simpl in H.
    rewrite !andb_false_r in H. discriminate.
  - intros H. destruct (flat_from false s) eqn:E; [reflexivity|].
    exfalso. apply H.
    destruct (flat_from_false_inv false s E) as [(Ho & _)|Hex]; [discriminate|].
    exact Hex.
Qed.

(** A proper non-empty prefix of a token leaves its ['{'] open. *)
Lemma token_prefix_open (o : bool) (a p q : gostring) :
  plain a -> token a = p ++ q -> p <> [] -> q <> [] -> brace_state o p = true.
Proof.
  intros Ha Htok Hp Hq. rewrite token_cons in Htok.
  destruct p as [|c p]; [congruence|]. injection Htok as <- Htok.
  assert (plain p) as Hplain.
  { destruct Ha as [Ha1 Ha2].
    apply app_eq_inv in Htok. destruct Htok as [(k & -> & Hk)|(k & -> & Hk)].
    - split; intros H; [apply Ha1 | apply Ha2]; apply elem_of_app; left; exact H.
    - destruct k as [|d k].
      + rewrite app_nil_r. split; assumption.
      + injection Hk as _ Hk. symmetry in Hk.
        apply app_eq_nil in Hk. destruct Hk as [_ Hk]. congruence. }
  change ("{"%byte :: p) with (["{"%byte] ++ p). rewrite brace_state_app.
  change (brace_state o ["{"%byte]) with true.
  apply (plain_scan true p Hplain).
Qed.

Lemma brace_flat_split (u v a : gostring) :
  plain a -> brace_flat (u ++ token a ++ v) ->
  brace_flat u /\ brace_state false u = false /\ brace_flat v.
Proof.
  unfold brace_flat. intros Ha H.
  rewrite !flat_from_app in H.
  destruct (token_scan (brace_state false u) a Ha) as [Hst Hfl].
  rewrite Hst, Hfl in H.
  apply andb_true_iff in H. destruct H as [Hu H].
  apply andb_true_iff in H. destruct H as [Hopen Hv].
  apply negb_true_iff in Hopen. auto.
Qed.

(** Removing one alias from a flat text: the text stays flat, the alias is
    gone, and no token appears that was not there before. *)
Lemma strip_flat (a : gostring) (s : gostring) :
  plain a -> brace_flat s ->
  brace_flat (strip s a) /\
  forall a', plain a' -> occurs (token a') (strip s a) ->
             occurs (token a') s /\ a' <> a.
Proof.
  intros Ha. unfold strip.
  apply (Replace_all_ind (token a) []
           (fun s r => brace_flat s ->
              brace_flat r /\
              forall a', plain a' -> occurs (token a') r ->
                         occurs (token a') s /\ a' <> a));
    try apply token_nonempty.
  - intros s' Hno Hflat. split; [exact Hflat|].
    intros a' _ Hocc. split; [exact Hocc|]. intros ->. exact (Hno Hocc).
  - intros u v r Hfirst IH Hflat. rewrite app_nil_l.
    destruct (brace_flat_split u v a Ha Hflat) as (Hu & Hclosed & Hv).
    destruct (IH Hv) as [Hr Hnew]. split.
    + unfold brace_flat in *. rewrite flat_from_app, Hu, Hclosed. exact Hr.
    + intros a' Ha' Hocc.
      apply occurs_app_cases in Hocc.
      destruct Hocc as [Hocc|[Hocc|(p & q & Htok & Hp & Hq & [x ->] & _)]].
      * split.
        -- destruct Hocc as (x & y & ->). exists x, (y ++ token a ++ v).
           rewrite <- !app_assoc. reflexivity.
        -- intros ->. exact (first_at_not_before _ _ _ (token_nonempty a) Hfirst Hocc).
      * destruct (Hnew a' Ha' Hocc) as [(x & y & ->) Hne]. split; [|exact Hne].
        exists (u ++ token a ++ x), y. rewrite <- !app_assoc. reflexivity.
      * exfalso. rewrite brace_state_app in Hclosed.
        rewrite (token_prefix_open _ a' p q Ha' Htok Hp Hq) in Hclosed.
        discriminate.
Qed.

Lemma foldl_strip_flat (l : list gostring) (s : gostring) :
  Forall plain l -> brace_flat s ->
  brace_flat (foldl strip s l) /\
  forall a', plain a' -> occurs (token a') (foldl strip s l) ->
             occurs (token a') s /\ a' ∉ l.
Proof.
  intros Hl. revert s. induction Hl as [|a l Ha _ IH]; intros s Hs; simpl.
  - split; [exact Hs|]. intros a' _ Hocc. split; [exact Hocc | apply not_elem_of_nil].
  - destruct (strip_flat a s Ha Hs) as [Hflat Hnew].
    destruct (IH _ Hflat) as [Hflat' Hnew']. split; [exact Hflat'|].
    intros a' Ha' Hocc.
    destruct (Hnew' a' Ha' Hocc) as [Hocc' Hnotin].
    destruct (Hnew a' Ha' Hocc') as [Hocc'' Hne].
    split; [exact Hocc''|]. apply not_elem_of_cons. split; assumption.
Qed.

Lemma plainb_plain (a : gostring) : plainb a = true -> plain a.
Proof.
  unfold plainb. induction a as [|c a IH]; simpl.
  - intros _. split; apply not_elem_of_nil.
  - rewrite !andb_true_iff, !negb_true_iff, !byte_eqb_neq.
    intros [[H1 H2] H]. apply plain_cons. auto.
Qed.

Lemma all_aliases_plain : Forall plain all_aliases.
Proof.
  assert (forallb plainb all_aliases = true) as H by (vm_compute; reflexivity).
  revert H. generalize all_aliases. intros l.
  induction l as [|a l IH]; simpl; [constructor|].
  rewrite andb_true_iff. intros [Ha Hl].
  constructor; [apply plainb_plain, Ha | apply IH, Hl].
Qed.

Lemma elem_of_all_aliases (a : gostring) :
  a ∈ all_aliases <-> exists ci, ci ∈ codes /\ a ∈ aliases ci.
Proof.
  unfold all_aliases. rewrite list_elem_of_In, in_flat_map.
  split; intros (ci & H1 & H2); exists ci; rewrite ?list_elem_of_In in *; auto.
Qed.

(** What [TrimFmt] leaves alone: exactly the texts without a recognised token. *)

Lemma occurs_dec (sub s : gostring) : occurs sub s \/ ~ occurs sub s.
Proof.
  destruct (Index_cases s sub) as [[_ H]|(u & [(v & ->) _] & _)]; [right; exact H|].
  left. exists u, v. reflexivity.
Qed.

Lemma strip_length (a s : gostring) :
  (length (strip s a) <= length s)%nat /\
  (occurs (token a) s -> (length (strip s a) < length s)%nat).
Proof.
  unfold strip.
  apply (Replace_all_ind (token a) []
           (fun s r => (length r <= length s)%nat /\
                       (occurs (token a) s -> (length r < length s)%nat)));
    try apply token_nonempty.
  - intros s' Hno. split; [lia | intros H; destruct (Hno H)].
  - intros u v r _ [IH _]. rewrite app_nil_l, !length_app, token_cons.
    simpl. split; [|intros _]; lia.
Qed.

Lemma foldl_strip_length (l : list gostring) (s : gostring) :
  (length (foldl strip s l) <= length s)%nat.
Proof.
  revert s. induction l as [|a l IH]; intros s; simpl; [lia|].
  specialize (IH (strip s a)). destruct (strip_length a s). lia.
Qed.

Lemma foldl_strip_shrinks (l : list gostring) (s a : gostring) :
  a ∈ l -> occurs (token a) s -> (length (foldl strip s l) < length s)%nat.
Proof.
  revert s. induction l as [|b l IH]; intros s Ha Hocc; [inversion Ha|].
  simpl. destruct (occurs_dec (token b) s) as [Hb|Hb].
  - pose proof (foldl_strip_length l (strip s b)).
    destruct (strip_length b s) as [_ Hlt]. specialize (Hlt Hb). lia.
  - rewrite (strip_absent s b Hb).
    apply elem_of_cons in Ha. destruct Ha as [->|Ha]; [destruct (Hb Hocc)|].
    apply IH; assumption.
Qed.

Lemma TrimFmt_fixed_iff (t : gostring) :
  TrimFmt t = Some t
  <-> forall ci a, ci ∈ codes -> a ∈ aliases ci -> ~ occurs (token a) t.
Proof.
  rewrite TrimFmt_fold. split.
  - intros H ci a Hci Ha Hocc. apply Some_eq_inv in H.
    assert (a ∈ all_aliases) as Hin by (apply elem_of_all_aliases; eauto).
    pose proof (foldl_strip_shrinks all_aliases t a Hin Hocc) as Hlt.
    rewrite H in Hlt. lia.
  - intros H. f_equal. apply foldl_strip_absent.
    intros a Ha. apply elem_of_all_aliases in Ha. destruct Ha as (ci & Hci & Ha).
    exact (H ci a Hci Ha).
Qed.

(** C3 as the code has it: on a text in which no ['{'] follows another
    ['{'] without a ['}'] between them, [TrimFmt] removes every recognised
    token, and running it again changes nothing. *)
Theorem TrimFmt_idempotent_on_flat (s : gostring) :
  brace_flat s ->
  exists t, TrimFmt s = Some t /\ TrimFmt t = Some t /\
    forall ci a, ci ∈ codes -> a ∈ aliases ci -> ~ occurs (token a) t.
Proof.
  intros Hs. exists (foldl strip s all_aliases).
  split; [apply TrimFmt_fold|].
  assert (forall ci a, ci ∈ codes -> a ∈ aliases ci ->
                       ~ occurs (token a) (foldl strip s all_aliases)) as Hfree.
  { intros ci a Hci Ha Hocc.
    assert (a ∈ all_aliases) as Hin by (apply elem_of_all_aliases; eauto).
    assert (plain a) as Hplain
      by (exact (proj1 (Forall_forall _ _) all_aliases_plain a Hin)).
    destruct (foldl_strip_flat all_aliases s all_aliases_plain Hs) as [_ Hnew].
    destruct (Hnew a Hplain Hocc) as [_ Hnotin]. exact (Hnotin Hin). }
  split; [apply TrimFmt_fixed_iff, Hfree | exact Hfree].
Qed.

Lemma TrimFmt_idempotent_on_flat_witness :
  brace_flat (lit "{red}hi {x} {b}there{c}") /\
  exists t, TrimFmt (lit "{red}hi {x} {b}there{c}") = Some t /\ TrimFmt t = Some t /\
    forall ci a, ci ∈ codes -> a ∈ aliases ci -> ~ occurs (token a) t.
Proof.
  split; [reflexivity|].
  apply (TrimFmt_idempotent_on_flat (lit "{red}hi {x} {b}there{c}")).
  reflexivity.
Defined.

(** C3 as stated fails: removing ["{b}"] from ["{wh{b}ite}"] puts the token
    ["{white}"] together after the sweep for [white] is over. The output
    still holds a recognised token, and a second run removes it. *)
Lemma TrimFmt_not_idempotent :
  TrimFmt (lit "{wh{b}ite}") = Some (lit "{white}") /\
  TrimFmt (lit "{white}") = Some [] /\
  TrimFmt (lit "{white}") <> Some (lit "{white}") /\
  occurs (token (lit "white")) (lit "{white}").
Proof.
  split; [vm_compute; reflexivity|].
  split; [vm_compute; reflexivity|].
  split; [vm_compute; discriminate|].
  exists [], []. reflexivity.
Qed.

(** ** Glob *)

Lemma Split_rounds_nonempty (k : nat) (s sep : gostring) : Split_rounds k s sep <> [].
Proof.
  destruct k; simpl; [discriminate|].
  destruct (Index s sep <? 0); discriminate.
Qed.

Lemma Contains_slice (input p : gostring) :
  Contains input p = true ->
  slice_from input (Index input p + len p)
  = Some (drop (Z.to_nat (Index input p + len p)) input).
Proof.
  unfold Contains. intros H. apply Z.leb_le in H.
  destruct (Index_cases input p) as [[Hi _]|(u & [(v & ->) _] & Hi)]; [lia|].
  rewrite Hi. unfold slice_from.
  pose proof (len_nonneg u). pose proof (len_nonneg p). pose proof (len_nonneg v).
  rewrite !len_app.
  destruct (Z.leb_spec 0 (len u + len p)); [|lia].
  destruct (Z.leb_spec (len u + len p) (len u + (len p + len v))); [|lia].
  reflexivity.
Qed.

Lemma Glob_loop (p0 plast : gostring) (middle : list gostring) (input : gostring) :
  for_range 1 (len (p0 :: middle ++ [plast]) - 1)
    (fun i input =>
       p ← at_ (p0 :: middle ++ [plast]) i;
       if negb (Contains input p) then Some (Return false) else
       let idx := Index input p + len p in
       input' ← slice_from input idx;
       Some (Continue input'))
    input
  = Some (match glob_middle middle input with
          | Some rest => inl rest
          | None => inr false
          end).
Proof.
  unfold for_range.
  replace (Z.to_nat (len (p0 :: middle ++ [plast]) - 1 - 1)) with (length middle)
    by (unfold len; simpl length; rewrite length_app; simpl; lia).
  change 1 with (len [p0]).
  rewrite (for_elems
             (fun p input =>
                if negb (Contains input p) then Return false
                else Continue (drop (Z.to_nat (Index input p + len p)) input))).
  - f_equal. revert input. induction middle as [|p ps IH]; intros input; simpl;
      [reflexivity|].
    destruct (Contains input p); simpl; [apply IH | reflexivity].
  - intros i a s Hi. rewrite at_nat.
    change (p0 :: middle ++ [plast]) with (([p0] ++ middle) ++ [plast]).
    rewrite (lookup_app_l_Some _ _ _ _ Hi). cbn [mbind option_bind].
    destruct (Contains s a) eqn:E; simpl; [|reflexivity].
    rewrite (Contains_slice s a E). reflexivity.
Qed.

Lemma Glob_run (input match_ : gostring) :
  Glob input match_
  = Some (if bytes_eqb match_ [] then bytes_eqb input match_
          else if bytes_eqb match_ globChar then true
          else match Split match_ globChar with
               | [] | [_] => bytes_eqb input match_
               | p0 :: ps =>
                   glob_parts input match_ p0 (removelast ps) (List.last ps [])
               end).
Proof.
  unfold Glob.
  destruct (bytes_eqb match_ []); [reflexivity|].
  destruct (bytes_eqb match_ globChar); [reflexivity|].
  destruct (Split match_ globChar) as [|p0 ps] eqn:Es.
  { exfalso. exact (Split_rounds_nonempty _ _ _ Es). }
  destruct ps as [|p1 ps]; [reflexivity|].
  replace (len (p0 :: p1 :: ps) =? 1) with false
    by (symmetry; apply Z.eqb_neq; unfold len; simpl length; lia).
  assert (p1 :: ps <> []) as Hne by discriminate.
  destruct (exists_last Hne) as (middle & plast & ->).
  rewrite removelast_last, last_last. unfold glob_parts.
  change (at_ (p0 :: middle ++ [plast]) 0) with (Some p0).
  destruct (HasPrefix match_ globChar); cbn [negb mbind option_bind andb].
  - rewrite Glob_loop. cbn [mbind option_bind].
    destruct (glob_middle middle input) as [rest|]; [|reflexivity].
    destruct (HasSuffix match_ globChar); [reflexivity|].
    replace (at_ (p0 :: middle ++ [plast]) (len (p0 :: middle ++ [plast]) - 1))
      with (Some plast); [reflexivity|].
    replace (len (p0 :: middle ++ [plast]) - 1) with (Z.of_nat (length (p0 :: middle)))
      by (unfold len; simpl length; rewrite length_app; simpl; lia).
    rewrite at_nat. change (p0 :: middle ++ [plast]) with ((p0 :: middle) ++ [plast]).
    rewrite lookup_app_r, Nat.sub_diag by lia. reflexivity.
  - destruct (HasPrefix input p0); cbn [negb]; [|reflexivity].
    rewrite Glob_loop. cbn [mbind option_bind].
    destruct (glob_middle middle input) as [rest|]; [|reflexivity].
    destruct (HasSuffix match_ globChar); [reflexivity|].
    replace (at_ (p0 :: middle ++ [plast]) (len (p0 :: middle ++ [plast]) - 1))
      with (Some plast); [reflexivity|].
    replace (len (p0 :: middle ++ [plast]) - 1) with (Z.of_nat (length (p0 :: middle)))
      by (unfold len; simpl length; rewrite length_app; simpl; lia).
    rewrite at_nat. change (p0 :: middle ++ [plast]) with ((p0 :: middle) ++ [plast]).
    rewrite lookup_app_r, Nat.sub_diag by lia. reflexivity.
Qed.

Lemma glob_middle_consume (ps : list gostring) (input rest : gostring) :
  glob_middle ps input = Some rest <-> consume ps input rest.
Proof.
  revert input. induction ps as [|p ps IH]; intros input; simpl.
  - split; [intros [= ->]; constructor | intros H; inversion H; reflexivity].
  - unfold Contains.
    destruct (Index_cases input p) as [[Hi Hno]|(u & Hfirst & Hi)]; rewrite Hi.
    + simpl. split; [discriminate|]. intros H. inversion H; subst.
      exfalso. apply Hno. eexists _, _. reflexivity.
    + destruct Hfirst as [(v & ->) Hmin].
      destruct (Z.leb_spec 0 (len u)) as [_|Hneg];
        [|pose proof (len_nonneg u); lia].
      destruct (take_drop_at u p v) as [_ ->]. rewrite IH. split.
      * intros H. constructor; [split; eauto | exact H].
      * intros H. inversion H as [|p' ps' u' v' rest' Hfirst' Hrest Heq1 Heq2 Heq3]; subst.
        assert (u' = u) as ->.
        { destruct Hfirst' as [_ Hmin'].
          pose proof (Hmin _ _ (eq_sym Heq2)) as H1.
          pose proof (Hmin' _ _ Heq2) as H2.
          apply (f_equal (take (length u))) in Heq2.
          rewrite take_app_length in Heq2.
          rewrite <- Heq2. replace (length u) with (length u') by lia.
          rewrite take_app_length. reflexivity. }
        apply app_inv_head in Heq2. apply app_inv_head in Heq2. subst. exact Hrest.
Qed.

Lemma Glob_true_uncut (input pattern : gostring) :
  occurs globChar pattern -> HasPrefix pattern globChar = false ->
  Glob input pattern = Some true -> glob_uncut input pattern.
Proof.
  intros Hstar Hlead. rewrite Glob_run.
  destruct (bytes_eqb pattern []) eqn:E1.
  { apply bytes_eqb_eq in E1. subst. destruct Hstar as (u & v & H).
    destruct u; discriminate. }
  destruct (bytes_eqb pattern globChar) eqn:E2.
  { apply bytes_eqb_eq in E2. subst. discriminate. }
  destruct (Split pattern globChar) as [|p0 [|p1 ps]] eqn:Es.
  - exfalso. exact (Split_rounds_nonempty _ _ _ Es).
  - exfalso. unfold Split in Es.
    destruct (Index_cases pattern globChar) as [[_ Hno]|(u & [(v & Hv) _] & Hi)];
      [exact (Hno Hstar)|].
    destruct pattern as [|c pattern]; [discriminate|].
    cbn [length Split_rounds] in Es. rewrite Hi in Es.
    destruct (Z.ltb_spec (len u) 0) as [Hneg|_];
      [pose proof (len_nonneg u); lia|].
    destruct (Split_rounds (length pattern)
                (drop (Z.to_nat (len u + len globChar)) (c :: pattern)) globChar)
      eqn:E; [exact (Split_rounds_nonempty _ _ _ E) | discriminate].
  - assert (p1 :: ps <> []) as Hne by discriminate.
    destruct (exists_last Hne) as (middle & plast & Hps). rewrite Hps.
    rewrite removelast_last, last_last. unfold glob_parts. rewrite Hlead.
    cbn [negb andb].
    destruct (HasPrefix input p0) eqn:Ep; cbn [negb]; [|discriminate].
    destruct (glob_middle middle input) as [rest|] eqn:Em; [|discriminate].
    intros H. apply Some_eq_inv in H.
    exists p0, middle, plast. split; [rewrite Es, Hps; reflexivity|].
    split; [apply HasPrefix_spec, Ep|].
    exists rest. split; [apply glob_middle_consume, Em|].
    apply orb_true_iff, H.
Qed.

(** C1 (the code departs from the claim): the prefix test does not cut the
    first part off the input, so the first part is matched again by the
    suffix test. ["a"] is accepted for ["a*a"], where nothing is left after
    the leading ["a"] for the last part to match. *)
Theorem Glob_prefix_not_consumed :
  occurs globChar (lit "a*a") /\ HasPrefix (lit "a*a") globChar = false /\
  Glob (lit "a") (lit "a*a") = Some true /\
  ~ glob_claim (lit "a") (lit "a*a").
Proof.
  split; [exists (lit "a"), (lit "a"); reflexivity|].
  split; [reflexivity|]. split; [vm_compute; reflexivity|].
  intros (p0 & middle & plast & Hs & rest0 & Hin & rest & Hc & Hend).
  change (Split (lit "a*a") globChar) with [lit "a"; lit "a"] in Hs.
  injection Hs as <- Hs.
  destruct middle as [|m middle].
  - injection Hs as <-. destruct rest0; [|discriminate].
    inversion Hc; subst. destruct Hend as [H|H]; vm_compute in H; discriminate.
  - injection Hs as _ Hs. destruct middle; discriminate.
Qed.

(** ** No operation panics *)

(** C9: every operation returns a value on every input, the empty string
    included: no index or slice expression of the file is ever evaluated out
    of range. *)
Theorem operations_total :
  (forall text, exists out, Fmt text = Some out) /\
  (forall text, exists out, TrimFmt text = Some out) /\
  (forall text, exists out, StripRaw text = Some out) /\
  (forall channel, exists b, IsValidChannel channel = Some b) /\
  (forall nick, exists b, IsValidNick nick = Some b) /\
  (forall name, exists b, IsValidUser name = Some b) /\
  (forall input, exists out, ToRFC1459 input = Some out) /\
  (forall input match_, exists b, Glob input match_ = Some b) /\
  Fmt [] = Some [] /\ TrimFmt [] = Some [] /\ StripRaw [] = Some [] /\
  IsValidChannel [] = Some false /\ IsValidNick [] = Some false /\
  IsValidUser [] = Some false /\ ToRFC1459 [] = Some [] /\
  Glob [] [] = Some true /\ (forall input, Glob input [] = Some (bytes_eqb input [])).
Proof.
  split; [intros text; rewrite Fmt_run; eauto|].
  split; [intros text; rewrite TrimFmt_run; eauto|].
  split; [intros text; rewrite StripRaw_run; eauto|].
  split; [intros channel; rewrite IsValidChannel_run; eauto|].
  split; [intros nick; rewrite IsValidNick_run; eauto|].
  split; [intros name; rewrite IsValidUser_run; eauto|].
  split; [intros input; rewrite ToRFC1459_run; eauto|].
  split; [intros input match_; rewrite Glob_run; eauto|].
  repeat split; vm_compute; reflexivity.
Qed.

(** * Further properties *)

(** ** ToRFC1459 *)

Lemma fold_bytes_of_fold_byte (c : byte) :
  fold_bytes c = string_of_rune (val8 (fold_byte c)).
Proof.
  unfold fold_bytes. rewrite fold_byte_val.
  destruct ((65 <=? val8 c) && (val8 c <=? 94)); reflexivity.
Qed.

Lemma flat_map_fold_bytes_map (a : gostring) :
  flat_map fold_bytes a
  = flat_map (fun c => string_of_rune (val8 c)) (FoldCase_spec a).
Proof.
  unfold FoldCase_spec. induction a as [|c a IH]; simpl; [reflexivity|].
  rewrite IH, fold_bytes_of_fold_byte. reflexivity.
Qed.

Lemma decode_pair_encode (c : byte) :
  (val8 c <? 128) || Byte.eqb (decode_pair (lead_byte c) (cont_byte c)) c = true.
Proof. destruct c; vm_compute; reflexivity. Qed.

Lemma high_pair_inj (c d : byte) :
  128 <= val8 c -> 128 <= val8 d ->
  lead_byte c = lead_byte d -> cont_byte c = cont_byte d -> c = d.
Proof.
  intros Hc Hd Hl Hk.
  pose proof (decode_pair_encode c) as Ec. pose proof (decode_pair_encode d) as Ed.
  destruct (Z.ltb_spec (val8 c) 128); [lia|].
  destruct (Z.ltb_spec (val8 d) 128); [lia|].
  simpl in Ec, Ed. apply byte_eqb_eq in Ec, Ed.
  rewrite <- Ec, <- Ed, Hl, Hk. reflexivity.
Qed.

Lemma fold_byte_low (c : byte) : val8 c < 128 -> val8 (fold_byte c) < 128.
Proof.
  intros Hc. rewrite fold_byte_val.
  destruct (Z.leb_spec 65 (val8 c)), (Z.leb_spec (val8 c) 94); simpl; lia.
Qed.

Lemma flat_map_fold_bytes_inj (a b : gostring) :
  flat_map fold_bytes a = flat_map fold_bytes b ->
  FoldCase_spec a = FoldCase_spec b.
Proof.
  unfold FoldCase_spec. revert b.
  induction a as [|c a IH]; intros [|d b] H.
  - reflexivity.
  - symmetry in H. apply flat_map_fold_bytes_nil in H. discriminate.
  - apply flat_map_fold_bytes_nil in H. discriminate.
  - change (flat_map fold_bytes (c :: a)) with (fold_bytes c ++ flat_map fold_bytes a) in H.
    change (flat_map fold_bytes (d :: b)) with (fold_bytes d ++ flat_map fold_bytes b) in H.
    rewrite !fold_bytes_shape in H.
    destruct (Z.ltb_spec (val8 c) 128) as [Hc|Hc], (Z.ltb_spec (val8 d) 128) as [Hd|Hd].
    + injection H as Hcd H. simpl. rewrite Hcd, (IH b H). reflexivity.
    + exfalso. injection H as Hcd _.
      pose proof (fold_byte_low c Hc). destruct (high_pair d Hd) as [Hl _].
      rewrite Hcd in *. lia.
    + exfalso. injection H as Hcd _.
      pose proof (fold_byte_low d Hd). destruct (high_pair c Hc) as [Hl _].
      rewrite Hcd in *. lia.
    + injection H as Hl Hk H.
      pose proof (high_pair_inj c d Hc Hd Hl Hk) as ->.
      simpl. rewrite (IH b H). reflexivity.
Qed.

(** X1: two strings have the same [ToRFC1459] form exactly when they are
    equal up to the RFC 1459 case mapping, byte by byte. The two-byte
    rendering of the bytes above [0x7F] does not confuse the comparison. *)
Theorem ToRFC1459_eq_iff (a b : gostring) :
  ToRFC1459 a = ToRFC1459 b <-> FoldCase_spec a = FoldCase_spec b.
Proof.
  rewrite !ToRFC1459_run. split.
  - intros H. apply Some_eq_inv in H. apply flat_map_fold_bytes_inj, H.
  - intros H. rewrite !flat_map_fold_bytes_map, H. reflexivity.
Qed.

(** X2: the output of [ToRFC1459] holds no byte in [65 .. 94]: no uppercase
    letter and none of [[ \ ] ^]. *)
Theorem ToRFC1459_output_folded (input : gostring) :
  exists out, ToRFC1459 input = Some out /\
    Forall (fun c => ~ between 65 94 c) out.
Proof.
  rewrite ToRFC1459_run. eexists. split; [reflexivity|].
  apply Forall_forall. intros c Hc. exact (fold_bytes_no_upper input c Hc).
Qed.

(** X3: [ToRFC1459] works byte by byte: the form of a concatenation is the
    concatenation of the forms. *)
Theorem ToRFC1459_app (a b : gostring) :
  ToRFC1459 (a ++ b)
  = (x ← ToRFC1459 a; y ← ToRFC1459 b; Some (x ++ y)).
Proof.
  rewrite !ToRFC1459_run. simpl. rewrite flat_map_app. reflexivity.
Qed.

Lemma fold_byte_fixed (c : byte) : ~ between 65 94 c -> fold_byte c = c.
Proof.
  unfold between, fold_byte. intros Hc.
  destruct (Z.leb_spec 65 (val8 c)), (Z.leb_spec (val8 c) 94); simpl; auto; lia.
Qed.

Lemma FoldCase_spec_fixed (f : gostring) :
  Forall (fun c => ~ between 65 94 c) f -> FoldCase_spec f = f.
Proof.
  unfold FoldCase_spec. induction 1 as [|c f Hc _ IH]; simpl; [reflexivity|].
  rewrite IH, (fold_byte_fixed c Hc). reflexivity.
Qed.

Lemma FoldCase_spec_low (s : gostring) :
  Forall (fun c => val8 c < 128) s -> Forall (fun c => val8 c < 128) (FoldCase_spec s).
Proof.
  unfold FoldCase_spec. intros H. apply Forall_fmap.
  eapply Forall_impl; [exact H|]. intros c Hc. simpl. apply fold_byte_low, Hc.
Qed.

(** X4: applying [ToRFC1459] twice is the same as applying it once exactly on
    the inputs without a byte above [0x7F]; a byte above [0x7F] is expanded
    again by the second pass. *)
Theorem ToRFC1459_twice_iff (s : gostring) :
  (x ← ToRFC1459 s; ToRFC1459 x) = ToRFC1459 s
  <-> Forall (fun c => val8 c < 128) s.
Proof.
  split.
  - rewrite !ToRFC1459_run. simpl. rewrite ToRFC1459_run. intros H.
    apply Some_eq_inv in H. apply (f_equal length) in H.
    rewrite flat_map_fold_bytes_length in H.
    assert (filter (fun c => (128 <= val8 c)%Z) (flat_map fold_bytes s) = []) as Hnil
      by (apply length_zero_iff_nil; lia).
    apply Forall_forall. intros c Hc.
    destruct (Z.lt_ge_cases (val8 c) 128) as [|Hge]; [assumption|]. exfalso.
    assert (lead_byte c ∈ filter (fun c => (128 <= val8 c)%Z) (flat_map fold_bytes s))
      as Hin.
    { apply list_elem_of_filter. split; [apply (high_pair c Hge)|].
      apply list_elem_of_In, in_flat_map. exists c.
      split; [apply list_elem_of_In, Hc|].
      rewrite fold_bytes_shape. destruct (Z.ltb_spec (val8 c) 128); [lia|].
      left. reflexivity. }
    rewrite Hnil in Hin. inversion Hin.
  - intros H. rewrite (ToRFC1459_ascii s H). simpl.
    rewrite (ToRFC1459_ascii _ (FoldCase_spec_low s H)). f_equal.
    apply FoldCase_spec_fixed. apply Forall_forall. intros c Hc.
    exact (FoldCase_spec_no_upper s c Hc).
Qed.

(** ** The validators and the case mapping *)

Lemma fold_bytes_twice (n : gostring) :
  FoldCase_spec (flat_map fold_bytes n) = flat_map fold_bytes n.
Proof.
  apply FoldCase_spec_fixed. apply Forall_forall. intros c Hc.
  exact (fold_bytes_no_upper n c Hc).
Qed.

(** X5: a name and its [ToRFC1459] form get the same verdict from
    [IsValidNick] and from [IsValidUser]. *)
Theorem validators_fold_invariant (n : gostring) :
  exists f, ToRFC1459 n = Some f /\
    IsValidNick f = IsValidNick n /\ IsValidUser f = IsValidUser n.
Proof.
  rewrite ToRFC1459_run. eexists. split; [reflexivity|].
  rewrite !IsValidNick_run, !IsValidUser_run. split; f_equal.
  - rewrite check_name_fold_agree
      by (apply nick_first_rejects_high || apply nick_other_rejects_high).
    fold (FoldCase_spec (flat_map fold_bytes n)).
    rewrite fold_bytes_twice. reflexivity.
  - rewrite user_check_fold_agree.
    fold (FoldCase_spec (flat_map fold_bytes n)).
    rewrite fold_bytes_twice. reflexivity.
Qed.

Lemma nick_range_fold (c : byte) : nick_range (fold_byte c) <-> nick_char c.
Proof.
  unfold nick_range, nick_char, between. rewrite fold_byte_val.
  rewrite <- val8_eq_iff. change (val8 "^") with 94.
  destruct (Z.leb_spec 65 (val8 c)), (Z.leb_spec (val8 c) 94); simpl; lia.
Qed.

Lemma is_digit_fold (c : byte) : is_digit (fold_byte c) <-> is_digit c.
Proof.
  unfold is_digit, between. rewrite fold_byte_val.
  destruct (Z.leb_spec 65 (val8 c)), (Z.leb_spec (val8 c) 94); simpl; lia.
Qed.

Lemma fold_byte_eq_low (c d : byte) :
  val8 d < 65 -> (fold_byte c = d <-> c = d).
Proof.
  intros Hd. rewrite <- !val8_eq_iff, fold_byte_val.
  destruct (Z.leb_spec 65 (val8 c)), (Z.leb_spec (val8 c) 94); simpl; lia.
Qed.

Lemma is_alnum_fold (c : byte) : is_alnum (fold_byte c) <-> is_alnum c.
Proof.
  unfold is_alnum, is_letter, is_upper, is_lower, is_digit, between.
  rewrite fold_byte_val.
  destruct (Z.leb_spec 65 (val8 c)), (Z.leb_spec (val8 c) 94); simpl; lia.
Qed.

(** X6: in terms of the bytes of the nickname itself, [IsValidNick] accepts
    the non-empty names whose first byte is in [0x41 .. 0x7D] but is not
    ['^'], and whose other bytes are such bytes, digits or hyphens. In
    particular ['^'] and ['~'] are refused at every position. *)
Theorem IsValidNick_bytes (n : gostring) :
  IsValidNick n = Some true
  <-> exists c0 t, n = c0 :: t /\ nick_char c0 /\
        Forall (fun c => nick_char c \/ is_digit c \/ c = "-"%byte) t.
Proof.
  rewrite IsValidNick_true_bytewise. unfold nick_spec, FoldCase_spec. split.
  - intros (Hne & c0 & t & Hn & H0 & Ht).
    destruct n as [|d0 r]; [congruence|]. simpl in Hn. injection Hn as <- <-.
    exists d0, r. split; [reflexivity|]. split; [apply nick_range_fold, H0|].
    apply Forall_fmap in Ht. eapply Forall_impl; [exact Ht|].
    intros c Hc. simpl in Hc.
    rewrite nick_range_fold, is_digit_fold in Hc.
    change 45 with (val8 "-") in Hc. rewrite val8_eq_iff in Hc.
    rewrite fold_byte_eq_low in Hc by (vm_compute; reflexivity). exact Hc.
  - intros (c0 & t & -> & H0 & Ht). split; [discriminate|].
    exists (fold_byte c0), (map fold_byte t). split; [reflexivity|].
    split; [apply nick_range_fold, H0|].
    apply Forall_fmap. eapply Forall_impl; [exact Ht|].
    intros c Hc. simpl.
    rewrite nick_range_fold, is_digit_fold.
    change 45 with (val8 "-"). rewrite val8_eq_iff.
    rewrite fold_byte_eq_low by (vm_compute; reflexivity). exact Hc.
Qed.

Lemma IsValidUser_true_bytewise (u : gostring) :
  IsValidUser u = Some true <-> u <> [] /\ user_spec (FoldCase_spec u).
Proof.
  rewrite IsValidUser_run, user_check_fold_agree. fold (FoldCase_spec u).
  rewrite <- (user_check_spec _ (FoldCase_spec_no_upper u)).
  split.
  - intros H. apply Some_eq_inv in H. split; [|exact H]. intros ->. discriminate.
  - intros [_ ->]. reflexivity.
Qed.

Lemma fold_byte_tilde (c : byte) :
  fold_byte c = "~"%byte <-> c = "~"%byte \/ c = "^"%byte.
Proof.
  rewrite <- !val8_eq_iff, fold_byte_val.
  change (val8 "~") with 126. change (val8 "^") with 94.
  destruct (Z.leb_spec 65 (val8 c)), (Z.leb_spec (val8 c) 94); simpl; lia.
Qed.

Lemma is_alnum_not_tilde (c : byte) : is_alnum c -> c <> "~"%byte /\ c <> "^"%byte.
Proof.
  unfold is_alnum, is_letter, is_upper, is_lower, is_digit, between.
  intros H. split; intros ->; vm_compute in H; intuition congruence.
Qed.

Lemma user_tail_fold (t : gostring) :
  Forall (fun c => nick_range c \/ is_digit c \/ c = "-"%byte \/ c = "."%byte)
    (map fold_byte t)
  <-> Forall (fun c => nick_char c \/ is_digit c \/ c = "-"%byte \/ c = "."%byte) t.
Proof.
  rewrite Forall_fmap. apply Forall_iff. intros c. simpl.
  rewrite nick_range_fold, is_digit_fold.
  rewrite !fold_byte_eq_low by (vm_compute; reflexivity). reflexivity.
Qed.

(** X7: in terms of the bytes of the name itself, [IsValidUser] accepts an
    optional leading ['~'] or ['^'] followed by a letter or digit and then by
    bytes of [0x41 .. 0x7D] other than ['^'], digits, hyphens or periods. *)
Theorem IsValidUser_bytes (u : gostring) :
  IsValidUser u = Some true
  <-> exists c0 t,
        (u = c0 :: t \/ u = "~"%byte :: c0 :: t \/ u = "^"%byte :: c0 :: t) /\
        is_alnum c0 /\
        Forall (fun c => nick_char c \/ is_digit c \/ c = "-"%byte \/ c = "."%byte) t.
Proof.
  rewrite IsValidUser_true_bytewise. unfold user_spec, FoldCase_spec. split.
  - intros (Hne & c0 & t & Hs & H0 & Ht).
    destruct u as [|d r]; [congruence|]. simpl in Hs.
    destruct (decide (fold_byte d = "~"%byte)) as [Hd|Hd].
    + destruct r as [|e r]; [discriminate|]. simpl in Hs. injection Hs as <- <-.
      exists e, r. split.
      * apply fold_byte_tilde in Hd. destruct Hd as [->| ->]; auto.
      * split; [apply is_alnum_fold, H0 | apply user_tail_fold, Ht].
    + injection Hs as <- <-. exists d, r. split; [auto|].
      split; [apply is_alnum_fold, H0 | apply user_tail_fold, Ht].
  - intros (c0 & t & Hu & H0 & Ht).
    assert (strip_tilde (map fold_byte u) = fold_byte c0 :: map fold_byte t) as Hs.
    { destruct Hu as [->|[->| ->]]; simpl.
      - destruct (decide (fold_byte c0 = "~"%byte)) as [Hd|Hd]; [|reflexivity].
        apply fold_byte_tilde in Hd. destruct (is_alnum_not_tilde c0 H0).
        destruct Hd; congruence.
      - reflexivity.
      - reflexivity. }
    split; [destruct Hu as [->|[->| ->]]; discriminate|].
    exists (fold_byte c0), (map fold_byte t). split; [exact Hs|].
    split; [apply is_alnum_fold, H0 | apply user_tail_fold, Ht].
Qed.

(** ** Fmt *)

Lemma Replace_absent (old new s : gostring) :
  old <> [] -> ~ occurs old s -> Replace s old new (-1) = s.
Proof.
  intros Hold Hno. destruct (decide (old = new)) as [<-|Hne].
  - unfold Replace. rewrite bytes_eqb_refl. reflexivity.
  - destruct (Replace_all_cases old new Hold s Hne)
      as [[_ H]|(u & v & -> & _ & _)]; [exact H|].
    exfalso. apply Hno. exists u, v. reflexivity.
Qed.

Lemma subst_pair_no_brace (t : gostring) (p : gostring * gostring) :
  has_brace t = false -> subst_pair t p = t.
Proof.
  intros Hb. apply Replace_absent; [apply token_nonempty|]. intros Hocc.
  apply not_true_iff_false in Hb. apply Hb, has_brace_spec.
  rewrite token_cons in Hocc. exact (occurs_head _ _ _ Hocc).
Qed.

Lemma foldl_subst_pair_no_brace (t : gostring) (l : list (gostring * gostring)) :
  has_brace t = false -> foldl subst_pair t l = t.
Proof.
  intros Hb. induction l as [|p l IH]; simpl; [reflexivity|].
  rewrite subst_pair_no_brace by exact Hb. exact IH.
Qed.

Lemma sweep_entries_pairs (cs : list ircFmtCode) (text : gostring) :
  sweep_entries val cs text
  = foldl subst_pair text
      (flat_map (fun ci => map (fun a => (a, val ci)) (aliases ci)) cs).
Proof.
  revert text. induction cs as [|ci cs IH]; intros text; simpl; [reflexivity|].
  rewrite foldl_app.
  assert (sweep_entry val text ci
          = foldl subst_pair text (map (fun a => (a, val ci)) (aliases ci))) as ->.
  { unfold sweep_entry. generalize (aliases ci). intros l. revert text.
    induction l as [|a l IHl]; intros text; simpl; [reflexivity|]. apply IHl. }
  destruct (has_brace (foldl subst_pair text _)) eqn:E.
  - apply IH.
  - symmetry. apply foldl_subst_pair_no_brace, E.
Qed.

(** The early exit of [Fmt] is not observable either. *)
Lemma Fmt_fold (text : gostring) : Fmt text = Some (foldl subst_pair text fmt_pairs).
Proof. rewrite Fmt_run, sweep_entries_pairs. reflexivity. Qed.

Lemma fmt_pairs_ok : Forall (fun p => pair_ok p = true) fmt_pairs.
Proof.
  assert (forallb pair_ok fmt_pairs = true) as H by (vm_compute; reflexivity).
  revert H. generalize fmt_pairs. intros l.
  induction l as [|p l IH]; simpl; [constructor|].
  rewrite andb_true_iff. intros [Hp Hl]. constructor; [exact Hp | apply IH, Hl].
Qed.

Lemma pair_ok_spec (p : gostring * gostring) :
  pair_ok p = true ->
  (forall b, b ∈ snd p -> val8 b < 0x40) /\
  (forall b, b ∈ token (fst p) -> 0x40 <= val8 b) /\
  snd p <> [] /\ (length (snd p) < length (token (fst p)))%nat.
Proof.
  unfold pair_ok. rewrite !andb_true_iff.
  intros [[[H1 H2] H3] H4].
  rewrite (forallb_Forall_iff _ (fun b => val8 b < 0x40)) in H1
    by (intros c; apply Z.ltb_lt).
  rewrite (forallb_Forall_iff _ (fun b => 0x40 <= val8 b)) in H2
    by (intros c; apply Z.leb_le).
  rewrite Forall_forall in H1. rewrite Forall_forall in H2.
  apply Z.ltb_lt in H3, H4. unfold len in *.
  repeat split; try assumption; [|lia].
  intros E. rewrite E in H3. simpl in H3. lia.
Qed.

Lemma elem_of_fmt_pairs (a v : gostring) :
  (a, v) ∈ fmt_pairs <-> exists ci, ci ∈ codes /\ a ∈ aliases ci /\ v = val ci.
Proof.
  unfold fmt_pairs. rewrite list_elem_of_In, in_flat_map. split.
  - intros (ci & Hci & Hin). apply in_map_iff in Hin.
    destruct Hin as (a' & [= <- <-] & Ha).
    exists ci. rewrite !list_elem_of_In. auto.
  - intros (ci & Hci & Ha & ->). exists ci. rewrite <- list_elem_of_In.
    split; [exact Hci|]. apply in_map_iff. exists a.
    rewrite <- list_elem_of_In. auto.
Qed.

(** An instance of [tok] in [u ++ new ++ r] lies in [u] or in [r] when
    [new] is not empty and shares no byte with [tok]. *)
Lemma occurs_around (tok u new r : gostring) :
  tok <> [] -> new <> [] -> (forall b, b ∈ new -> b ∉ tok) ->
  occurs tok (u ++ new ++ r) -> occurs tok u \/ occurs tok r.
Proof.
  intros Htok Hnew Hdisj Hocc.
  apply occurs_app_cases in Hocc.
  destruct Hocc as [H|[H|(p & q & -> & Hp & Hq & _ & [y Hy])]]; [left; exact H| |].
  - apply occurs_app_cases in H.
    destruct H as [H|[H|(p & q & -> & Hp & Hq & [x ->] & _)]]; [|right; exact H|].
    + exfalso. destruct tok as [|b tok]; [congruence|].
      apply occurs_head in H. apply (Hdisj b H), list_elem_of_here.
    + exfalso. destruct p as [|b p]; [congruence|].
      apply (Hdisj b).
      * apply elem_of_app. right. apply list_elem_of_here.
      * apply list_elem_of_here.
  - exfalso. destruct q as [|b q]; [congruence|].
    destruct new as [|n new]; [congruence|]. injection Hy as -> _.
    apply (Hdisj b); [apply list_elem_of_here|].
    apply elem_of_app. right. apply list_elem_of_here.
Qed.

Lemma Replace_no_new (old new tok s : gostring) :
  old <> [] -> old <> new -> tok <> [] -> new <> [] ->
  (forall b, b ∈ new -> b ∉ tok) ->
  occurs tok (Replace s old new (-1)) -> occurs tok s /\ tok <> old.
Proof.
  intros Hold Hne Htok Hnew Hdisj.
  apply (Replace_all_ind old new
           (fun s r => occurs tok r -> occurs tok s /\ tok <> old) Hold Hne).
  - intros s' Hno Hocc. split; [exact Hocc|]. intros ->. exact (Hno Hocc).
  - intros u v r Hfirst IH Hocc.
    apply occurs_around in Hocc; try assumption.
    destruct Hocc as [Hocc|Hocc].
    + split.
      * destruct Hocc as (x & y & ->). exists x, (y ++ old ++ v).
        rewrite <- !app_assoc. reflexivity.
      * intros ->. exact (first_at_not_before _ _ _ Hold Hfirst Hocc).
    + destruct (IH Hocc) as [(x & y & ->) Hno]. split; [|exact Hno].
      exists (u ++ old ++ x), y. rewrite <- !app_assoc. reflexivity.
Qed.

Lemma pair_token_not_val (p : gostring * gostring) :
  pair_ok p = true -> token (fst p) <> snd p.
Proof.
  intros Hp E. destruct (pair_ok_spec p Hp) as (_ & _ & _ & Hlen).
  rewrite E in Hlen. lia.
Qed.

Lemma foldl_subst_no_new (l : list (gostring * gostring)) (s tok : gostring) :
  Forall (fun p => pair_ok p = true) l ->
  tok <> [] -> (forall b, b ∈ tok -> 0x40 <= val8 b) ->
  occurs tok (foldl subst_pair s l) ->
  occurs tok s /\ forall p, p ∈ l -> tok <> token (fst p).
Proof.
  intros Hl Htok Hbytes. revert s.
  induction Hl as [|p l Hp _ IH]; intros s Hocc; simpl in Hocc.
  - split; [exact Hocc|]. intros p Hp. inversion Hp.
  - destruct (IH _ Hocc) as [Hocc' Hrest].
    destruct (pair_ok_spec p Hp) as (Hval & _ & Hne & _).
    unfold subst_pair in Hocc'.
    apply Replace_no_new in Hocc'; try assumption.
    + destruct Hocc' as [Hs Hold]. split; [exact Hs|].
      intros q Hq. apply elem_of_cons in Hq. destruct Hq as [->|Hq]; auto.
    + apply token_nonempty.
    + apply pair_token_not_val, Hp.
    + intros b Hb Hb'. specialize (Hval b Hb). specialize (Hbytes b Hb'). lia.
Qed.

Lemma foldl_subst_absent (t : gostring) (l : list (gostring * gostring)) :
  (forall p, p ∈ l -> ~ occurs (token (fst p)) t) -> foldl subst_pair t l = t.
Proof.
  intros H. induction l as [|p l IH]; simpl; [reflexivity|].
  unfold subst_pair at 2.
  rewrite Replace_absent; [|apply token_nonempty | apply H, list_elem_of_here].
  apply IH. intros q Hq. apply H, list_elem_of_further, Hq.
Qed.

Lemma token_free_pairs (t : gostring) :
  token_free t <-> forall p, p ∈ fmt_pairs -> ~ occurs (token (fst p)) t.
Proof.
  unfold token_free. split.
  - intros H [a v] Hp. apply elem_of_fmt_pairs in Hp.
    destruct Hp as (ci & Hci & Ha & _). exact (H ci a Hci Ha).
  - intros H ci a Hci Ha. apply (H (a, val ci)), elem_of_fmt_pairs. eauto.
Qed.

Lemma Fmt_output_token_free (t : gostring) : token_free (foldl subst_pair t fmt_pairs).
Proof.
  apply token_free_pairs. intros p Hp Hocc.
  assert (pair_ok p = true) as Hok
    by (exact (proj1 (Forall_forall _ _) fmt_pairs_ok p Hp)).
  destruct (pair_ok_spec p Hok) as (_ & Hbytes & _ & _).
  destruct (foldl_subst_no_new fmt_pairs t (token (fst p)) fmt_pairs_ok
              (token_nonempty _) Hbytes Hocc) as [_ Hne].
  exact (Hne p Hp eq_refl).
Qed.

(** X8: whatever the input, the output of [Fmt] holds no ["{alias}"] of the
    table (the inserted control bytes keep the pieces of a token apart), and
    [Fmt] leaves its own output unchanged. *)
Theorem Fmt_idempotent (t : gostring) :
  exists r, Fmt t = Some r /\ token_free r /\ Fmt r = Some r.
Proof.
  exists (foldl subst_pair t fmt_pairs). split; [apply Fmt_fold|].
  pose proof (Fmt_output_token_free t) as Hfree. split; [exact Hfree|].
  rewrite Fmt_fold. f_equal. apply foldl_subst_absent, token_free_pairs, Hfree.
Qed.

Lemma subst_pair_length (p : gostring * gostring) (s : gostring) :
  pair_ok p = true ->
  (length (subst_pair s p) <= length s)%nat /\
  (occurs (token (fst p)) s -> (length (subst_pair s p) < length s)%nat).
Proof.
  intros Hp. destruct (pair_ok_spec p Hp) as (_ & _ & _ & Hlen).
  unfold subst_pair.
  apply (Replace_all_ind (token (fst p)) (snd p)
           (fun s r => (length r <= length s)%nat /\
                       (occurs (token (fst p)) s -> (length r < length s)%nat)));
    [apply token_nonempty | apply pair_token_not_val, Hp | |].
  - intros s' Hno. split; [lia | intros H; destruct (Hno H)].
  - intros u v r _ [IH _]. rewrite !length_app. split; [|intros _]; lia.
Qed.

Lemma foldl_subst_length (l : list (gostring * gostring)) (s : gostring) :
  Forall (fun p => pair_ok p = true) l ->
  (length (foldl subst_pair s l) <= length s)%nat.
Proof.
  intros Hl. revert s. induction Hl as [|p l Hp _ IH]; intros s; simpl; [lia|].
  specialize (IH (subst_pair s p)). destruct (subst_pair_length p s Hp). lia.
Qed.

Lemma foldl_subst_shrinks (l : list (gostring * gostring)) (s : gostring)
    (p : gostring * gostring) :
  Forall (fun p => pair_ok p = true) l ->
  p ∈ l -> occurs (token (fst p)) s ->
  (length (foldl subst_pair s l) < length s)%nat.
Proof.
  intros Hl. revert s. induction Hl as [|q l Hq Hl IH]; intros s Hp Hocc;
    [inversion Hp|].
  simpl. destruct (occurs_dec (token (fst q)) s) as [Hb|Hb].
  - pose proof (foldl_subst_length l (subst_pair s q) Hl).
    destruct (subst_pair_length q s Hq) as [_ Hlt]. specialize (Hlt Hb). lia.
  - unfold subst_pair at 2.
    rewrite (Replace_absent _ _ _ (token_nonempty _) Hb).
    apply elem_of_cons in Hp. destruct Hp as [->|Hp]; [destruct (Hb Hocc)|].
    apply IH; assumption.
Qed.

(** X9: [Fmt] and [TrimFmt] return their argument unchanged exactly when it
    holds no ["{alias}"] of the table; otherwise the result is shorter. *)
Theorem Fmt_TrimFmt_unchanged_iff (t : gostring) :
  (Fmt t = Some t <-> token_free t) /\
  (TrimFmt t = Some t <-> token_free t) /\
  (exists r r', Fmt t = Some r /\ TrimFmt t = Some r' /\
     (~ token_free t -> (length r < length t)%nat /\ (length r' < length t)%nat)).
Proof.
  assert (Hfmt : Fmt t = Some t <-> token_free t).
  { rewrite Fmt_fold, token_free_pairs. split.
    - intros H p Hp Hocc. apply Some_eq_inv in H.
      pose proof (foldl_subst_shrinks fmt_pairs t p fmt_pairs_ok Hp Hocc) as Hlt.
      rewrite H in Hlt. lia.
    - intros H. f_equal. apply foldl_subst_absent, H. }
  split; [exact Hfmt|]. split; [apply TrimFmt_fixed_iff|].
  exists (foldl subst_pair t fmt_pairs), (foldl strip t all_aliases).
  split; [apply Fmt_fold|]. split; [apply TrimFmt_fold|].
  intros Hnot.
  assert (exists ci a, ci ∈ codes /\ a ∈ aliases ci /\ occurs (token a) t)
    as (ci & a & Hci & Ha & Hocc).
  { destruct (decide (Exists (fun p => bool_decide (0 <= Index t (token (fst p))) = true)
                        fmt_pairs)) as [Hex|Hnone].
    - apply Exists_exists in Hex. destruct Hex as ([a v] & Hp & Hi).
      apply bool_decide_eq_true in Hi. apply elem_of_fmt_pairs in Hp.
      destruct Hp as (ci & Hci & Ha & _). exists ci, a.
      split; [exact Hci|]. split; [exact Ha|]. simpl in Hi.
      destruct (Index_cases t (token a)) as [[Hm _]|(u & [(v' & ->) _] & _)]; [lia|].
      exists u, v'. reflexivity.
    - exfalso. apply Hnot, token_free_pairs. intros p Hp Hocc.
      apply Hnone, Exists_exists. exists p. split; [exact Hp|].
      apply bool_decide_eq_true.
      destruct (Index_cases t (token (fst p))) as [[_ Hno]|(u & _ & ->)];
        [destruct (Hno Hocc) | apply len_nonneg]. }
  split.
  - apply (foldl_subst_shrinks fmt_pairs t (a, val ci) fmt_pairs_ok); [|exact Hocc].
    apply elem_of_fmt_pairs. eauto.
  - apply (foldl_strip_shrinks all_aliases t a); [|exact Hocc].
    apply elem_of_all_aliases. eauto.
Qed.

(** ** What the strippers keep *)

Lemma Replace_remove_sublist (old s : gostring) :
  old <> [] -> Replace s old [] (-1) `sublist_of` s.
Proof.
  intros Hold.
  apply (Replace_all_ind old [] (fun s r => r `sublist_of` s) Hold Hold).
  - intros s' _. reflexivity.
  - intros u v r _ IH. rewrite app_nil_l.
    apply sublist_app; [reflexivity|]. apply sublist_inserts_l, IH.
Qed.

Lemma foldl_strip_sublist (l : list gostring) (s : gostring) :
  foldl strip s l `sublist_of` s.
Proof.
  revert s. induction l as [|a l IH]; intros s; simpl; [reflexivity|].
  etransitivity; [apply IH|]. apply Replace_remove_sublist, token_nonempty.
Qed.

Lemma codes_val_nonempty (ci : ircFmtCode) : ci ∈ codes -> val ci <> [].
Proof.
  intros Hci. destruct (codes_start_with_control_byte ci Hci) as (h & rest & -> & _).
  discriminate.
Qed.

Lemma foldl_val_sublist (cs : list ircFmtCode) (s : gostring) :
  (forall ci, ci ∈ cs -> val ci <> []) ->
  foldl (fun t ci => Replace t (val ci) [] (-1)) s cs `sublist_of` s.
Proof.
  revert s. induction cs as [|ci cs IH]; intros s H; simpl; [reflexivity|].
  etransitivity.
  - apply IH. intros c Hc. apply H, list_elem_of_further, Hc.
  - apply Replace_remove_sublist, H, list_elem_of_here.
Qed.

(** X10: [TrimFmt] and [StripRaw] only delete: the output is a subsequence
    of the input, bytes are neither added nor reordered. *)
Theorem strippers_only_delete (t : gostring) :
  exists r r', TrimFmt t = Some r /\ StripRaw t = Some r' /\
    r `sublist_of` t /\ r' `sublist_of` t.
Proof.
  exists (foldl strip t all_aliases),
         (foldl (fun t ci => Replace t (val ci) [] (-1)) t codes).
  split; [apply TrimFmt_fold|]. split; [apply StripRaw_run|].
  split; [apply foldl_strip_sublist|].
  apply foldl_val_sublist. intros ci Hci. apply codes_val_nonempty, Hci.
Qed.

Lemma foldl_val_absent (cs : list ircFmtCode) (t : gostring) :
  (forall ci, ci ∈ cs -> val ci <> [] /\ ~ occurs (val ci) t) ->
  foldl (fun t ci => Replace t (val ci) [] (-1)) t cs = t.
Proof.
  intros H. induction cs as [|ci cs IH]; simpl; [reflexivity|].
  destruct (H ci (list_elem_of_here _ _)) as [Hne Hno].
  rewrite (Replace_absent _ _ _ Hne Hno).
  apply IH. intros c Hc. apply H, list_elem_of_further, Hc.
Qed.

Lemma StripRaw_fixed (t : gostring) :
  (forall b, b ∈ control_bytes -> b ∉ t) -> StripRaw t = Some t.
Proof.
  intros H. rewrite StripRaw_run. f_equal. apply foldl_val_absent.
  intros ci Hci. split; [apply codes_val_nonempty, Hci|]. intros Hocc.
  destruct (codes_start_with_control_byte ci Hci) as (h & rest & Hval & Hh).
  rewrite Hval in Hocc. apply occurs_head in Hocc. exact (H h Hh Hocc).
Qed.

(** X11: [StripRaw] returns its argument unchanged exactly when it holds none
    of the seven control bytes [0x02 0x1D 0x0F 0x03 0x16 0x1F 0x01], and it
    leaves its own output unchanged. *)
Theorem StripRaw_idempotent (t : gostring) :
  (StripRaw t = Some t <-> forall b, b ∈ control_bytes -> b ∉ t) /\
  exists r, StripRaw t = Some r /\ StripRaw r = Some r.
Proof.
  split.
  - split; [|apply StripRaw_fixed].
    rewrite StripRaw_run. intros H b Hb. apply Some_eq_inv in H.
    rewrite <- H. apply StripRaw_no_control_byte, Hb.
  - exists (foldl (fun t ci => Replace t (val ci) [] (-1)) t codes).
    split; [apply StripRaw_run|]. apply StripRaw_fixed.
    intros b Hb. apply StripRaw_no_control_byte, Hb.
Qed.

(** ** One token in a text without other braces *)

Lemma has_brace_false (t : gostring) : has_brace t = false <-> "{"%byte ∉ t.
Proof.
  rewrite <- has_brace_spec. destruct (has_brace t); split; congruence.
Qed.

Lemma only_brace_position (u w x z : gostring) :
  "{"%byte ∉ u -> "{"%byte ∉ w ->
  u ++ "{"%byte :: w = x ++ "{"%byte :: z -> x = u /\ z = w.
Proof.
  intros Hu Hw H. apply app_eq_inv in H.
  destruct H as [(k & -> & Hk)|(k & -> & Hk)].
  - destruct k as [|c k].
    + rewrite app_nil_r. simpl in Hk. injection Hk as ->. auto.
    + injection Hk as <- _. exfalso. apply Hu, elem_of_app. right.
      apply list_elem_of_here.
  - destruct k as [|c k].
    + rewrite app_nil_r. simpl in Hk. injection Hk as ->. auto.
    + injection Hk as <- ->. exfalso. apply Hw, elem_of_app. right.
      apply list_elem_of_here.
Qed.

Lemma token_tail_no_brace (a v : gostring) :
  plain a -> "{"%byte ∉ v -> "{"%byte ∉ a ++ "}"%byte :: v.
Proof.
  intros [Ha _] Hv H. apply elem_of_app in H. destruct H as [H|H]; [exact (Ha H)|].
  apply elem_of_cons in H. destruct H as [H|H]; [discriminate | exact (Hv H)].
Qed.

Lemma single_token_decompose (a u v x y : gostring) (a' : gostring) :
  plain a -> plain a' -> "{"%byte ∉ u -> "{"%byte ∉ v ->
  u ++ token a ++ v = x ++ token a' ++ y -> x = u /\ a' = a /\ y = v.
Proof.
  intros Ha Ha' Hu Hv H. rewrite !token_cons in H.
  change (u ++ ("{"%byte :: a ++ ["}"%byte]) ++ v)
    with (u ++ "{"%byte :: (a ++ ["}"%byte]) ++ v) in H.
  change (x ++ ("{"%byte :: a' ++ ["}"%byte]) ++ y)
    with (x ++ "{"%byte :: (a' ++ ["}"%byte]) ++ y) in H.
  rewrite <- !app_assoc in H. simpl in H.
  apply only_brace_position in H;
    [|exact Hu | apply token_tail_no_brace; assumption].
  destruct H as [-> H]. symmetry in H.
  apply not_elem_of_app_cons_inv_l in H; [|apply Ha' | apply Ha].
  destruct H as (-> & _ & ->). auto.
Qed.

Lemma single_token_replace (a w u v : gostring) :
  plain a -> token a <> w -> "{"%byte ∉ u -> "{"%byte ∉ v ->
  Replace (u ++ token a ++ v) (token a) w (-1) = u ++ w ++ v.
Proof.
  intros Ha Hne Hu Hv.
  destruct (Replace_all_cases (token a) w (token_nonempty a) (u ++ token a ++ v) Hne)
    as [[Hno _]|(x & y & Heq & _ & ->)].
  - exfalso. apply Hno. exists u, v. reflexivity.
  - destruct (single_token_decompose a u v x y a Ha Ha Hu Hv Heq) as (-> & _ & ->).
    rewrite Replace_absent; [reflexivity | apply token_nonempty|].
    intros Hocc. rewrite token_cons in Hocc. exact (Hv (occurs_head _ _ _ Hocc)).
Qed.

Lemma foldl_subst_single (l : list (gostring * gostring)) (a w u v : gostring) :
  NoDup (map fst l) ->
  (forall p, p ∈ l -> plain (fst p) /\ ("{"%byte ∉ snd p) /\ token (fst p) <> snd p) ->
  (a, w) ∈ l -> "{"%byte ∉ u -> "{"%byte ∉ v ->
  foldl subst_pair (u ++ token a ++ v) l = u ++ w ++ v.
Proof.
  intros Hnd Hl Hin Hu Hv.
  induction l as [|p l IH]; [inversion Hin|].
  simpl in Hnd. apply NoDup_cons in Hnd. destruct Hnd as [Hp Hnd].
  apply elem_of_cons in Hin. cbn [foldl]. destruct Hin as [<-|Hin].
  - destruct (Hl (a, w) (list_elem_of_here _ _)) as (Ha & Hw & Hne).
    cbn [fst snd] in Ha, Hw, Hne.
    unfold subst_pair at 2. cbn [fst snd].
    rewrite (single_token_replace a w u v Ha Hne Hu Hv).
    apply foldl_subst_pair_no_brace, has_brace_false.
    rewrite !elem_of_app. intuition.
  - assert (fst p <> a) as Hpa.
    { intros E. apply Hp. rewrite E.
      apply (list_elem_of_fmap_2 fst _ (a, w)), Hin. }
    destruct (Hl p (list_elem_of_here _ _)) as (Hplain & _ & _).
    destruct (Hl (a, w) (list_elem_of_further _ _ _ Hin)) as (Ha & _ & _).
    unfold subst_pair at 2. rewrite Replace_absent; [|apply token_nonempty|].
    + apply IH; [exact Hnd | | exact Hin].
      intros q Hq. apply Hl, list_elem_of_further, Hq.
    + intros (x & y & Heq).
      destruct (single_token_decompose a u v x y (fst p) Ha Hplain Hu Hv Heq)
        as (_ & E & _). exact (Hpa E).
Qed.

Lemma map_fst_pairs (cs : list ircFmtCode) :
  map fst (flat_map (fun ci => map (fun a => (a, val ci)) (aliases ci)) cs)
  = flat_map aliases cs.
Proof.
  induction cs as [|ci cs IH]; simpl; [reflexivity|].
  rewrite map_app, IH, map_map. simpl. rewrite map_id. reflexivity.
Qed.

Lemma all_aliases_NoDup : NoDup all_aliases.
Proof. apply (bool_decide_unpack _). vm_compute. exact I. Qed.

Lemma foldl_strip_as_pairs (l : list gostring) (t : gostring) :
  foldl strip t l = foldl subst_pair t (map (fun a => (a, [])) l).
Proof.
  revert t. induction l as [|a l IH]; intros t; simpl; [reflexivity|]. apply IH.
Qed.

(** X12: in a text with no other ['{'], one ["{alias}"] of the table is
    replaced by the value of its entry by [Fmt], and removed by [TrimFmt];
    nothing else changes. *)
Theorem single_token_formatted (ci : ircFmtCode) (a u v : gostring) :
  ci ∈ codes -> a ∈ aliases ci -> has_brace u = false -> has_brace v = false ->
  Fmt (u ++ token a ++ v) = Some (u ++ val ci ++ v) /\
  TrimFmt (u ++ token a ++ v) = Some (u ++ v).
Proof.
  intros Hci Ha Hu Hv. apply has_brace_false in Hu, Hv.
  assert (a ∈ all_aliases) as Hin by (apply elem_of_all_aliases; eauto).
  split.
  - rewrite Fmt_fold. f_equal. apply foldl_subst_single; try assumption.
    + unfold fmt_pairs. rewrite map_fst_pairs. apply all_aliases_NoDup.
    + intros [a' w] Hp.
      assert (pair_ok (a', w) = true) as Hok
        by (exact (proj1 (Forall_forall _ _) fmt_pairs_ok _ Hp)).
      destruct (pair_ok_spec _ Hok) as (Hval & _ & _ & _).
      apply elem_of_fmt_pairs in Hp. destruct Hp as (ci' & Hci' & Ha' & ->).
      split; [|split].
      * apply (proj1 (Forall_forall _ _) all_aliases_plain).
        apply elem_of_all_aliases. eauto.
      * intros Hb. specialize (Hval _ Hb). vm_compute in Hval. discriminate.
      * apply (pair_token_not_val _ Hok).
    + apply elem_of_fmt_pairs. eauto.
  - rewrite TrimFmt_fold. f_equal. rewrite foldl_strip_as_pairs.
    apply (foldl_subst_single _ a [] u v); try assumption.
    + rewrite map_map. cbn [fst]. rewrite map_id. apply all_aliases_NoDup.
    + intros p Hp. apply list_elem_of_fmap in Hp. destruct Hp as (a' & -> & Ha').
      split; [|split].
      * exact (proj1 (Forall_forall _ _) all_aliases_plain a' Ha').
      * apply not_elem_of_nil.
      * apply token_nonempty.
    + apply (list_elem_of_fmap_2 (fun a => (a, [])) _ a), Hin.
Qed.

Lemma single_token_formatted_witness :
  Fmt (lit "say " ++ token (lit "navy") ++ lit " now")
  = Some (lit "say " ++ color x30 x32 ++ lit " now") /\
  TrimFmt (lit "say " ++ token (lit "navy") ++ lit " now")
  = Some (lit "say " ++ lit " now").
Proof.
  apply (single_token_formatted
           {| aliases := [lit "blue"; lit "navy"]; val := color x30 x32 |}
           (lit "navy") (lit "say ") (lit " now")).
  - apply (list_elem_of_lookup_2 _ 2%nat). reflexivity.
  - apply (list_elem_of_lookup_2 _ 1%nat). reflexivity.
  - reflexivity.
  - reflexivity.
Defined.

(** ** Split and the shapes of a pattern *)

Lemma Split_rounds_enough (sep : gostring) (k1 k2 : nat) (s : gostring) :
  sep <> [] -> (length s <= k1)%nat -> (length s <= k2)%nat ->
  Split_rounds k1 s sep = Split_rounds k2 s sep.
Proof.
  intros Hsep. revert k2 s. induction k1 as [|k1 IH]; intros k2 s H1 H2.
  - destruct s; [|simpl in H1; lia].
    destruct k2; simpl; [reflexivity|]. rewrite (Index_nil_old sep Hsep). reflexivity.
  - destruct k2 as [|k2].
    + destruct s; [|simpl in H2; lia]. simpl.
      rewrite (Index_nil_old sep Hsep). reflexivity.
    + simpl. destruct (Index_cases s sep) as [[-> _]|(u & [(v & ->) _] & ->)];
        [reflexivity|].
      destruct (Z.ltb_spec (len u) 0) as [Hneg|_];
        [pose proof (len_nonneg u); lia|].
      destruct (take_drop_at u sep v) as [-> ->].
      f_equal. rewrite !length_app in H1, H2.
      assert (0 < length sep)%nat by (destruct sep; [congruence | simpl; lia]).
      apply IH; lia.
Qed.

Lemma Split_cases (sep s : gostring) :
  sep <> [] ->
  (~ occurs sep s /\ Split s sep = [s]) \/
  (exists u v, s = u ++ sep ++ v /\ first_at sep s u /\
     Split s sep = u :: Split v sep).
Proof.
  intros Hsep. unfold Split.
  rewrite (Split_rounds_enough sep (length s) (Datatypes.S (length s)) s Hsep) by lia.
  cbn [Split_rounds].
  destruct (Index_cases s sep) as [[Hi Hno]|(u & [(v & Hv) Hmin] & Hi)]; rewrite Hi.
  - left. split; [exact Hno | reflexivity].
  - right. exists u, v. split; [exact Hv|]. split; [split; eauto|].
    destruct (Z.ltb_spec (len u) 0) as [Hneg|_];
      [pose proof (len_nonneg u); lia|].
    subst s. destruct (take_drop_at u sep v) as [-> ->].
    f_equal. apply Split_rounds_enough; rewrite ?length_app; try lia. exact Hsep.
Qed.

Lemma globChar_cons : globChar = ["*"%byte].
Proof. reflexivity. Qed.

Lemma Split_star_free (p : gostring) :
  "*"%byte ∉ p -> Split p globChar = [p].
Proof.
  intros Hp. destruct (Split_cases globChar p ltac:(discriminate))
    as [[_ H]|(u & v & -> & _ & _)]; [exact H|].
  exfalso. apply Hp. rewrite globChar_cons, !elem_of_app.
  right. left. apply list_elem_of_here.
Qed.

Lemma Split_star_cons (p rest : gostring) :
  "*"%byte ∉ p ->
  Split (p ++ globChar ++ rest) globChar = p :: Split rest globChar.
Proof.
  intros Hp. destruct (Split_cases globChar (p ++ globChar ++ rest) ltac:(discriminate))
    as [[Hno _]|(u & v & Heq & Hfirst & ->)].
  - exfalso. apply Hno. exists p, rest. reflexivity.
  - rewrite Heq in Hfirst. rewrite globChar_cons in *.
    apply first_at_single in Hfirst.
    apply not_elem_of_app_cons_inv_l in Heq; [|exact Hfirst | exact Hp].
    destruct Heq as (-> & _ & ->). reflexivity.
Qed.

Lemma HasSuffix_spec (s p : gostring) :
  HasSuffix s p = true <-> exists w, s = w ++ p.
Proof.
  unfold HasSuffix, len. rewrite andb_true_iff, Z.leb_le, bytes_eqb_eq. split.
  - intros [Hlen H]. exists (take (length s - length p) s).
    etransitivity; [symmetry; apply (take_drop (length s - length p))|].
    f_equal. exact H.
  - intros (w & ->). rewrite length_app. split; [lia|].
    replace (length w + length p - length p)%nat with (length w) by lia.
    apply drop_app_length.
Qed.

Lemma Contains_spec (s p : gostring) : Contains s p = true <-> occurs p s.
Proof.
  unfold Contains. rewrite Z.leb_le.
  destruct (Index_cases s p) as [[-> Hno]|(u & [(v & ->) _] & ->)].
  - split; [lia | intros H; destruct (Hno H)].
  - split; [intros _; exists u, v; reflexivity | intros _; apply len_nonneg].
Qed.

Lemma bytes_eqb_false (a b : gostring) : a <> b -> bytes_eqb a b = false.
Proof. intros H. apply not_true_iff_false. rewrite bytes_eqb_eq. exact H. Qed.

(** X13: a pattern without ['*'] matches its own text and nothing else. *)
Theorem Glob_literal (input pattern : gostring) :
  "*"%byte ∉ pattern ->
  (Glob input pattern = Some true <-> input = pattern).
Proof.
  intros Hp. rewrite Glob_run.
  destruct (bytes_eqb pattern []) eqn:E1.
  { rewrite <- bytes_eqb_eq. split; [intros H; apply Some_eq_inv, H | intros ->; reflexivity]. }
  destruct (bytes_eqb pattern globChar) eqn:E2.
  { apply bytes_eqb_eq in E2. subst. exfalso. apply Hp, list_elem_of_here. }
  rewrite (Split_star_free pattern Hp), <- bytes_eqb_eq.
  split; [intros H; apply Some_eq_inv, H | intros ->; reflexivity].
Qed.

Lemma Glob_literal_witness :
  Glob (lit "nick") (lit "nick") = Some true <-> lit "nick" = lit "nick".
Proof.
  apply (Glob_literal (lit "nick") (lit "nick")).
  intros H. apply IndexByte_present in H. vm_compute in H. discriminate.
Defined.

Lemma Glob_parts_run (input pattern p0 : gostring) (middle : list gostring)
    (plast : gostring) :
  pattern <> [] -> pattern <> globChar ->
  Split pattern globChar = p0 :: middle ++ [plast] ->
  Glob input pattern = Some (glob_parts input pattern p0 middle plast).
Proof.
  intros H1 H2 Hs. rewrite Glob_run, Hs.
  rewrite (bytes_eqb_false _ _ H1), (bytes_eqb_false _ _ H2).
  destruct (middle ++ [plast]) as [|q qs] eqn:E.
  { destruct middle; discriminate. }
  rewrite <- E, removelast_last, last_last. reflexivity.
Qed.

Lemma no_star_suffix (x p : gostring) :
  "*"%byte ∉ p -> p <> [] -> HasSuffix (x ++ p) globChar = false.
Proof.
  intros Hp Hne. apply not_true_iff_false. rewrite HasSuffix_spec.
  intros (w & H). destruct (exists_last Hne) as (p' & d & ->).
  rewrite app_assoc, globChar_cons in H. apply app_inj_tail in H.
  destruct H as [_ ->]. apply Hp, elem_of_app. right. apply list_elem_of_here.
Qed.

Lemma no_star_prefix (p y : gostring) :
  "*"%byte ∉ p -> p <> [] -> HasPrefix (p ++ y) globChar = false.
Proof.
  intros Hp Hne. apply not_true_iff_false. rewrite HasPrefix_spec.
  intros (w & H). destruct p as [|c p]; [congruence|].
  rewrite globChar_cons in H. injection H as -> _. apply Hp, list_elem_of_here.
Qed.

Lemma Split_empty : Split [] globChar = [[]].
Proof. reflexivity. Qed.

Ltac by_length :=
  let H := fresh in
  intros H; apply (f_equal length) in H;
  rewrite ?length_app in H; simpl in H; lia.

(** X14: for a text [p] without ['*'], the pattern [p*] matches the inputs
    that start with [p], [*p] those that end with [p], and [*p*] those that
    contain [p]. *)
Theorem Glob_prefix_suffix_contains (input p : gostring) :
  "*"%byte ∉ p ->
  (Glob input (p ++ globChar) = Some true <-> exists w, input = p ++ w) /\
  (Glob input (globChar ++ p) = Some true <-> exists w, input = w ++ p) /\
  (Glob input (globChar ++ p ++ globChar) = Some true <-> occurs p input).
Proof.
  intros Hp. split; [|split].
  - destruct p as [|c p'] eqn:Ep.
    + simpl. split; [intros _; exists input; reflexivity | reflexivity].
    + rewrite <- Ep in *. assert (p <> []) as Hne by (subst; discriminate).
      rewrite (Glob_parts_run input (p ++ globChar) p [] []).
      * unfold glob_parts. rewrite (no_star_prefix p globChar Hp Hne).
        cbn [negb andb glob_middle].
        assert (HasSuffix (p ++ globChar) globChar = true) as ->
          by (apply HasSuffix_spec; exists p; reflexivity).
        rewrite <- HasPrefix_spec.
        destruct (HasPrefix input p); simpl; split; congruence.
      * by_length.
      * subst p. by_length.
      * rewrite <- (app_nil_r (p ++ globChar)), <- app_assoc.
        rewrite (Split_star_cons p [] Hp). reflexivity.
  - destruct p as [|c p'] eqn:Ep.
    + simpl. split; [intros _; exists input; rewrite app_nil_r; reflexivity | reflexivity].
    + rewrite <- Ep in *. assert (p <> []) as Hne by (subst; discriminate).
      rewrite (Glob_parts_run input (globChar ++ p) [] [] p).
      * unfold glob_parts.
        assert (HasPrefix (globChar ++ p) globChar = true) as ->
          by (apply HasPrefix_spec; exists p; reflexivity).
        cbn [negb andb glob_middle].
        rewrite (no_star_suffix globChar p Hp Hne). cbn [orb].
        rewrite <- HasSuffix_spec.
        destruct (HasSuffix input p); split; congruence.
      * by_length.
      * subst p. by_length.
      * change (globChar ++ p) with ([] ++ globChar ++ p).
        rewrite (Split_star_cons [] p (not_elem_of_nil _)).
        rewrite (Split_star_free p Hp). reflexivity.
  - rewrite (Glob_parts_run input (globChar ++ p ++ globChar) [] [p] []).
    + unfold glob_parts.
      assert (HasPrefix (globChar ++ p ++ globChar) globChar = true) as ->
        by (apply HasPrefix_spec; exists (p ++ globChar); reflexivity).
      cbn [negb andb glob_middle].
      assert (HasSuffix (globChar ++ p ++ globChar) globChar = true) as ->
        by (apply HasSuffix_spec; exists (globChar ++ p); rewrite <- app_assoc; reflexivity).
      rewrite <- Contains_spec.
      destruct (Contains input p); simpl; split; congruence.
    + by_length.
    + by_length.
    + change (globChar ++ p ++ globChar) with ([] ++ globChar ++ p ++ globChar).
      rewrite (Split_star_cons [] _ (not_elem_of_nil _)).
      rewrite <- (app_nil_r (p ++ globChar)), <- app_assoc.
      rewrite (Split_star_cons p [] Hp). reflexivity.
Qed.

Lemma Glob_prefix_suffix_contains_witness :
  (Glob (lit "hello") (lit "ell" ++ globChar) = Some true
   <-> exists w, lit "hello" = lit "ell" ++ w) /\
  (Glob (lit "hello") (globChar ++ lit "ell") = Some true
   <-> exists w, lit "hello" = w ++ lit "ell") /\
  (Glob (lit "hello") (globChar ++ lit "ell" ++ globChar) = Some true
   <-> occurs (lit "ell") (lit "hello")).
Proof.
  apply (Glob_prefix_suffix_contains (lit "hello") (lit "ell")).
  intros H. apply IndexByte_present in H. vm_compute in H. discriminate.
Defined.

(** ** Patterns with a ['*'] *)

Lemma star_occurs (pattern : gostring) :
  occurs globChar pattern <-> "*"%byte ∈ pattern.
Proof. rewrite globChar_cons. apply occurs_single. Qed.

(** The parts of a pattern that holds a ['*']: at least two, and the first
    is empty when the pattern starts with ['*']. *)
Lemma Split_with_star (pattern : gostring) :
  occurs globChar pattern ->
  exists p0 middle plast rest,
    Split pattern globChar = p0 :: middle ++ [plast] /\
    pattern = p0 ++ globChar ++ rest /\
    (HasPrefix pattern globChar = true -> p0 = []).
Proof.
  intros Hocc.
  destruct (Split_cases globChar pattern ltac:(discriminate))
    as [[Hno _]|(u & v & Heq & [_ Hmin] & Hs)]; [destruct (Hno Hocc)|].
  assert (Split v globChar <> []) as Hne by apply Split_rounds_nonempty.
  destruct (exists_last Hne) as (middle & plast & Hv).
  exists u, middle, plast, v. split; [rewrite Hs, Hv; reflexivity|].
  split; [exact Heq|]. intros Hlead. apply HasPrefix_spec in Hlead.
  destruct Hlead as (w & Hw). specialize (Hmin [] w Hw).
  destruct u; [reflexivity | simpl in Hmin; lia].
Qed.

(** X15: for a pattern that holds a ['*'], [Glob] accepts exactly the inputs
    that start with the first part, in which the middle parts are found one
    after the other from the start of the input (each search resuming after
    the first instance of the previous part), and where what is left ends
    with the last part unless the pattern ends with ['*']. *)
Theorem Glob_uncut_iff (input pattern : gostring) :
  occurs globChar pattern ->
  (Glob input pattern = Some true <-> glob_uncut input pattern).
Proof.
  intros Hocc.
  destruct (Split_with_star pattern Hocc) as (p0 & middle & plast & tl & Hs & Heq & Hlead).
  assert (pattern <> []) as Hne by (rewrite Heq; by_length).
  assert (Hshape : glob_uncut input pattern <->
            (exists rest0, input = p0 ++ rest0) /\
            exists rest, consume middle input rest /\
              (HasSuffix pattern globChar = true \/ HasSuffix rest plast = true)).
  { unfold glob_uncut. split.
    - intros (q0 & ms & ql & Hs' & H). rewrite Hs in Hs'. injection Hs' as <- Hs'.
      apply app_inj_tail in Hs'. destruct Hs' as [<- <-]. exact H.
    - intros H. exists p0, middle, plast. split; [exact Hs | exact H]. }
  rewrite Hshape. clear Hshape.
  destruct (decide (pattern = globChar)) as [->|Hstar].
  - rewrite Glob_run. simpl. split; [intros _|reflexivity].
    change (Split globChar globChar) with ([[]; []] : list gostring) in Hs.
    injection Hs as <- Hs. destruct middle as [|m middle].
    + split; [exists input; reflexivity|]. exists input.
      split; [constructor | left; reflexivity].
    + injection Hs as _ Hs. destruct middle; discriminate.
  - rewrite (Glob_parts_run input pattern p0 middle plast Hne Hstar Hs).
    unfold glob_parts. rewrite <- HasPrefix_spec. split.
    + intros H. apply Some_eq_inv in H.
      destruct (HasPrefix pattern globChar) eqn:El; cbn [negb andb] in H.
      * rewrite (Hlead eq_refl) in *. split; [destruct input; reflexivity|].
        destruct (glob_middle middle input) as [rest|] eqn:Em; [|discriminate].
        exists rest. split; [apply glob_middle_consume, Em|].
        apply orb_true_iff, H.
      * destruct (HasPrefix input p0); cbn [negb] in H; [|discriminate].
        split; [reflexivity|].
        destruct (glob_middle middle input) as [rest|] eqn:Em; [|discriminate].
        exists rest. split; [apply glob_middle_consume, Em|].
        apply orb_true_iff, H.
    + intros (Hpre & rest & Hc & Hend). rewrite Hpre.
      cbn [negb]. rewrite andb_false_r.
      apply glob_middle_consume in Hc. rewrite Hc.
      f_equal. apply orb_true_iff, Hend.
Qed.

Lemma Glob_uncut_iff_witness :
  Glob (lit "hello world") (lit "h*o w*d") = Some true
  <-> glob_uncut (lit "hello world") (lit "h*o w*d").
Proof.
  apply (Glob_uncut_iff (lit "hello world") (lit "h*o w*d")).
  exists (lit "h"), (lit "o w*d"). reflexivity.
Defined.

Lemma star_join_cons (q : gostring) (qs : list gostring) :
  star_join (q :: qs) = globChar ++ q ++ star_join qs.
Proof. unfold star_join. cbn [flat_map]. rewrite <- app_assoc. reflexivity. Qed.

(** Joining the parts with ['*'] gives the pattern back. *)
Lemma Split_join (s q0 : gostring) (qs : list gostring) :
  Split s globChar = q0 :: qs -> s = q0 ++ star_join qs.
Proof.
  remember (length s) as n eqn:Hn. revert s q0 qs Hn.
  induction n as [n IH] using lt_wf_ind. intros s q0 qs Hn Hs.
  destruct (Split_cases globChar s ltac:(discriminate))
    as [[_ H]|(u & v & -> & _ & H)]; rewrite H in Hs.
  - injection Hs as <- <-. rewrite app_nil_r. reflexivity.
  - injection Hs as <- Hv.
    destruct qs as [|q1 qs]; [destruct (Split_rounds_nonempty _ _ _ Hv)|].
    rewrite star_join_cons. do 2 f_equal.
    apply (IH (length v)); [|reflexivity | exact Hv].
    rewrite Hn, !length_app. simpl. lia.
Qed.

Lemma glob_middle_self (middle : list gostring) (w plast : gostring) :
  exists w', glob_middle middle (w ++ star_join (middle ++ [plast]))
             = Some (w' ++ globChar ++ plast).
Proof.
  revert w. induction middle as [|q ms IH]; intros w.
  - exists w. simpl. rewrite app_nil_r. reflexivity.
  - change ((q :: ms) ++ [plast]) with (q :: (ms ++ [plast])).
    rewrite star_join_cons. set (S := star_join (ms ++ [plast])).
    cbn [glob_middle].
    assert (occurs q (w ++ globChar ++ q ++ S)) as Hocc
      by (exists (w ++ globChar), S; rewrite <- !app_assoc; reflexivity).
    rewrite (proj2 (Contains_spec _ _) Hocc).
    destruct (Index_cases (w ++ globChar ++ q ++ S) q)
      as [[_ Hno]|(u & [(v & Hv) Hmin] & ->)]; [destruct (Hno Hocc)|].
    specialize (Hmin (w ++ globChar) S).
    rewrite <- !app_assoc in Hmin. specialize (Hmin eq_refl).
    replace (Z.to_nat (len u + len q)) with (length u + length q)%nat
      by (unfold len; lia).
    replace (w ++ globChar ++ q ++ S) with ((w ++ globChar ++ q) ++ S)
      by (rewrite <- !app_assoc; reflexivity).
    rewrite drop_app_le by (rewrite !length_app in *; lia).
    apply IH.
Qed.

(** X16: every pattern matches its own text. *)
Theorem Glob_self (p : gostring) : Glob p p = Some true.
Proof.
  destruct (decide ("*"%byte ∈ p)) as [Hstar|Hstar].
  - apply star_occurs in Hstar.
    destruct (Split_with_star p Hstar) as (p0 & middle & plast & tl & Hs & Heq & _).
    destruct (decide (p = globChar)) as [->|Hne]; [reflexivity|].
    assert (p <> []) as Hnil by (rewrite Heq; by_length).
    rewrite (Glob_parts_run p p p0 middle plast Hnil Hne Hs). f_equal.
    unfold glob_parts.
    pose proof (Split_join p p0 _ Hs) as Hjoin.
    assert (HasPrefix p p0 = true) as ->
      by (apply HasPrefix_spec; eexists; exact Hjoin).
    cbn [negb]. rewrite andb_false_r.
    destruct (glob_middle_self middle p0 plast) as (w' & Hm).
    rewrite <- Hjoin in Hm. rewrite Hm.
    apply orb_true_iff. right. apply HasSuffix_spec.
    exists (w' ++ globChar). rewrite <- app_assoc. reflexivity.
  - rewrite Glob_run. f_equal.
    destruct (bytes_eqb p []); [apply bytes_eqb_refl|].
    destruct (bytes_eqb p globChar); [reflexivity|].
    rewrite (Split_star_free p Hstar). apply bytes_eqb_refl.
Qed.

(** ** The empty input *)

Lemma Split_parts_star_free (s : gostring) :
  Forall (fun q => "*"%byte ∉ q) (Split s globChar).
Proof.
  remember (length s) as n eqn:Hn. revert s Hn.
  induction n as [n IH] using lt_wf_ind. intros s Hn.
  destruct (Split_cases globChar s ltac:(discriminate))
    as [[Hno ->]|(u & v & -> & Hfirst & ->)].
  - constructor; [|constructor]. intros H. apply Hno, star_occurs, H.
  - constructor.
    + rewrite globChar_cons in Hfirst. apply first_at_single in Hfirst. exact Hfirst.
    + apply (IH (length v)); [|reflexivity].
      rewrite Hn, !length_app. simpl. lia.
Qed.

Lemma Split_all_stars (s : gostring) :
  Forall (fun c => c = "*"%byte) s -> Forall (fun q => q = []) (Split s globChar).
Proof.
  induction 1 as [|c s -> _ IH].
  - constructor; [reflexivity | constructor].
  - change ("*"%byte :: s) with ([] ++ globChar ++ s).
    rewrite (Split_star_cons [] s (not_elem_of_nil _)).
    constructor; [reflexivity | exact IH].
Qed.

Lemma star_join_empty_parts (qs : list gostring) :
  Forall (fun q => q = []) qs -> Forall (fun c => c = "*"%byte) (star_join qs).
Proof.
  induction 1 as [|q qs -> _ IH]; [constructor|].
  rewrite star_join_cons. constructor; [reflexivity | exact IH].
Qed.

Lemma glob_middle_empty_input (middle : list gostring) (rest : gostring) :
  glob_middle middle [] = Some rest <-> Forall (fun q => q = []) middle /\ rest = [].
Proof.
  induction middle as [|q ms IH]; simpl.
  - split; [intros H; apply Some_eq_inv in H; auto | intros [_ ->]; reflexivity].
  - destruct q as [|c q].
    + change (Contains [] []) with true. cbn iota.
      change (drop (Z.to_nat (Index [] [] + len (@nil byte))) (@nil byte)) with (@nil byte).
      rewrite IH, Forall_cons. intuition.
    + change (Contains [] (c :: q)) with false. cbn iota.
      split; [discriminate|]. intros [H _]. inversion H. discriminate.
Qed.

Lemma HasPrefix_nil (p : gostring) : HasPrefix [] p = true <-> p = [].
Proof. destruct p; simpl; split; congruence. Qed.

Lemma HasSuffix_nil (p : gostring) : HasSuffix [] p = true <-> p = [].
Proof.
  rewrite HasSuffix_spec. split.
  - intros (w & H). symmetry in H. apply app_eq_nil in H. apply H.
  - intros ->. exists []. reflexivity.
Qed.

Lemma glob_parts_true (input pattern p0 : gostring) (middle : list gostring)
    (plast : gostring) :
  glob_parts input pattern p0 middle plast = true
  <-> (HasPrefix pattern globChar = true \/ HasPrefix input p0 = true) /\
      exists rest, glob_middle middle input = Some rest /\
        (HasSuffix pattern globChar = true \/ HasSuffix rest plast = true).
Proof.
  unfold glob_parts.
  destruct (HasPrefix pattern globChar), (HasPrefix input p0); cbn [negb andb].
  all: destruct (glob_middle middle input) as [rest|].
  all: try rewrite orb_true_iff.
  all: split;
    [ try discriminate; intros H; (split; [auto|]); exists rest; auto
    | intros ([H|H] & r & Hr & Hs); try discriminate;
      try (apply Some_eq_inv in Hr; subst r; exact Hs) ].
Qed.

Lemma star_join_snoc (qs : list gostring) (q : gostring) :
  star_join (qs ++ [q]) = star_join qs ++ globChar ++ q.
Proof.
  unfold star_join. rewrite flat_map_app. cbn [flat_map].
  rewrite app_nil_r. reflexivity.
Qed.

(** X17: the empty input is matched by the empty pattern and by the
    patterns made of ['*'] only, and by no other pattern. *)
Theorem Glob_empty_input (pattern : gostring) :
  Glob [] pattern = Some true <-> Forall (fun c => c = "*"%byte) pattern.
Proof.
  destruct (decide ("*"%byte ∈ pattern)) as [Hstar|Hstar].
  - apply star_occurs in Hstar.
    destruct (Split_with_star pattern Hstar)
      as (p0 & middle & plast & tl & Hs & Heq & Hlead).
    pose proof (Split_join pattern p0 _ Hs) as Hjoin.
    pose proof (Split_parts_star_free pattern) as Hfree. rewrite Hs in Hfree.
    destruct (decide (pattern = globChar)) as [->|Hne].
    { split; [intros _; repeat constructor | reflexivity]. }
    assert (pattern <> []) as Hnil by (rewrite Heq; by_length).
    rewrite (Glob_parts_run [] pattern p0 middle plast Hnil Hne Hs).
    split.
    + intros H. apply Some_eq_inv, glob_parts_true in H.
      destruct H as (Hpre & rest & Hm & Hend).
      assert (p0 = []) as ->
        by (destruct Hpre as [H|H]; [apply Hlead, H | apply HasPrefix_nil, H]).
      apply glob_middle_empty_input in Hm. destruct Hm as [Hm ->].
      assert (plast = []) as ->.
      { destruct Hend as [H|H]; [|apply HasSuffix_nil, H].
        destruct plast as [|c plast]; [reflexivity|]. exfalso.
        apply Forall_cons in Hfree. destruct Hfree as [_ Hfree].
        apply Forall_app in Hfree. destruct Hfree as [_ Hfree].
        apply Forall_cons in Hfree. destruct Hfree as [Hl _].
        rewrite Hjoin, star_join_snoc, !app_assoc in H.
        rewrite (no_star_suffix _ (c :: plast) Hl) in H; discriminate. }
      rewrite Hjoin. apply star_join_empty_parts, Forall_app.
      split; [exact Hm | repeat constructor].
    + intros Hall. apply Split_all_stars in Hall. rewrite Hs in Hall.
      apply Forall_cons in Hall. destruct Hall as [-> Hall].
      apply Forall_app in Hall. destruct Hall as [Hm Hl].
      apply Forall_cons in Hl. destruct Hl as [-> _].
      f_equal. apply glob_parts_true. split; [right; reflexivity|].
      exists []. split; [apply glob_middle_empty_input; auto | right; reflexivity].
  - rewrite Glob_run. destruct pattern as [|c pattern].
    + split; [intros _; constructor | reflexivity].
    + change (bytes_eqb (c :: pattern) []) with false. cbn iota.
      destruct (bytes_eqb (c :: pattern) globChar) eqn:E.
      { apply bytes_eqb_eq in E. rewrite E in Hstar.
        exfalso. apply Hstar, list_elem_of_here. }
      rewrite (Split_star_free _ Hstar). split; [discriminate|].
      intros H. apply Forall_cons in H. destruct H as [-> _].
      exfalso. apply Hstar, list_elem_of_here.
Qed.

(** ** Text before the first brace *)

Lemma first_at_unique (old s u u' : gostring) :
  first_at old s u -> first_at old s u' -> u = u'.
Proof.
  intros [(v & Hv) Hmin] [(v' & Hv') Hmin'].
  pose proof (Hmin _ _ Hv') as H1. pose proof (Hmin' _ _ Hv) as H2.
  assert (length u = length u') as Hlen by lia.
  rewrite Hv in Hv'. apply (f_equal (take (length u))) in Hv'.
  rewrite take_app_length in Hv'. rewrite Hlen, take_app_length in Hv'. exact Hv'.
Qed.

Lemma Replace_first (old new u v : gostring) :
  old <> [] -> old <> new -> first_at old (u ++ old ++ v) u ->
  Replace (u ++ old ++ v) old new (-1) = u ++ new ++ Replace v old new (-1).
Proof.
  intros Hold Hne Hfirst.
  destruct (Replace_all_cases old new Hold (u ++ old ++ v) Hne)
    as [[Hno _]|(u' & v' & Heq & Hfirst' & ->)].
  - exfalso. apply Hno. exists u, v. reflexivity.
  - pose proof (first_at_unique _ _ _ _ Hfirst Hfirst') as <-.
    apply app_inv_head in Heq. apply app_inv_head in Heq. subst v'. reflexivity.
Qed.

Lemma Replace_frame (h : byte) (old' new a t : gostring) :
  h ∉ a ->
  Replace (a ++ t) (h :: old') new (-1) = a ++ Replace t (h :: old') new (-1).
Proof.
  intros Ha. set (old := h :: old').
  destruct (decide (old = new)) as [<-|Hne].
  { unfold Replace. rewrite bytes_eqb_refl. reflexivity. }
  assert (old <> []) as Hold by discriminate.
  destruct (Replace_all_cases old new Hold t Hne)
    as [[Hno ->]|(u & v & -> & [_ Hmin] & ->)].
  - apply Replace_absent; [exact Hold|]. intros Hocc.
    apply occurs_app_cases in Hocc.
    destruct Hocc as [H|[H|(p & q & Hpq & Hp & _ & [x ->] & _)]].
    + apply Ha. exact (occurs_head _ _ _ H).
    + exact (Hno H).
    + destruct p as [|c p]; [congruence|]. injection Hpq as <- _.
      apply Ha, elem_of_app. right. apply list_elem_of_here.
  - rewrite app_assoc, Replace_first, <- app_assoc; try assumption; [reflexivity|].
    split; [exists v; reflexivity|].
    intros x y Heq. rewrite <- app_assoc in Heq.
    apply app_eq_inv in Heq. destruct Heq as [(k & -> & Hk)|(k & -> & Hk)].
    + destruct k as [|c k].
      * simpl in Hk. specialize (Hmin [] y (eq_sym Hk)).
        rewrite !length_app in *. simpl in *. lia.
      * injection Hk as <- _. exfalso.
        apply Ha, elem_of_app. right. apply list_elem_of_here.
    + specialize (Hmin k y Hk). rewrite !length_app. lia.
Qed.

Lemma foldl_subst_frame (l : list (gostring * gostring)) (a t : gostring) :
  "{"%byte ∉ a ->
  foldl subst_pair (a ++ t) l = a ++ foldl subst_pair t l.
Proof.
  intros Ha. revert t. induction l as [|p l IH]; intros t; simpl; [reflexivity|].
  unfold subst_pair at 2 4. rewrite token_cons, (Replace_frame _ _ _ a t Ha).
  apply IH.
Qed.

(** X18: what precedes the first ['{'] of a text is left alone: [Fmt] and
    [TrimFmt] of [a ++ t], for [a] without ['{'], are [a] followed by the
    result on [t]. *)
Theorem Fmt_TrimFmt_frame (a t : gostring) :
  has_brace a = false ->
  Fmt (a ++ t) = (r ← Fmt t; Some (a ++ r)) /\
  TrimFmt (a ++ t) = (r ← TrimFmt t; Some (a ++ r)).
Proof.
  intros Ha. apply has_brace_false in Ha. split.
  - rewrite !Fmt_fold. cbn [mbind option_bind]. f_equal.
    apply foldl_subst_frame, Ha.
  - rewrite !TrimFmt_fold. cbn [mbind option_bind]. f_equal.
    rewrite !foldl_strip_as_pairs. apply foldl_subst_frame, Ha.
Qed.

Lemma Fmt_TrimFmt_frame_witness :
  Fmt (lit "} x " ++ lit "{b}{y") = (r ← Fmt (lit "{b}{y"); Some (lit "} x " ++ r)) /\
  TrimFmt (lit "} x " ++ lit "{b}{y")
  = (r ← TrimFmt (lit "{b}{y"); Some (lit "} x " ++ r)).
Proof.
  apply (Fmt_TrimFmt_frame (lit "} x ") (lit "{b}{y")). reflexivity.
Defined.

(** ** Patterns that start or end with ['*'] *)

Lemma first_at_extend (p u v y : gostring) :
  first_at p (u ++ p ++ v) u -> first_at p (u ++ p ++ v ++ y) u.
Proof.
  intros [_ Hmin]. split; [exists (v ++ y); reflexivity|].
  intros x z Heq.
  replace (u ++ p ++ v ++ y) with ((u ++ p ++ v) ++ y) in Heq
    by (rewrite <- !app_assoc; reflexivity).
  rewrite (app_assoc x p z) in Heq.
  apply app_eq_inv in Heq. destruct Heq as [(k & Hk & _)|(k & Hk & _)].
  - rewrite <- app_assoc in Hk. exact (Hmin x k Hk).
  - apply (f_equal length) in Hk. rewrite !length_app in Hk. lia.
Qed.

Lemma consume_append (ps : list gostring) (input rest y : gostring) :
  consume ps input rest -> consume ps (input ++ y) (rest ++ y).
Proof.
  induction 1 as [input|p ps u v rest Hfirst _ IH]; [constructor|].
  replace ((u ++ p ++ v) ++ y) with (u ++ p ++ (v ++ y))
    by (rewrite <- !app_assoc; reflexivity).
  constructor; [apply first_at_extend, Hfirst | exact IH].
Qed.

Lemma consume_prepend (ps : list gostring) (input rest z : gostring) :
  consume ps input rest -> exists z', consume ps (z ++ input) (z' ++ rest).
Proof.
  intros H. revert z. induction H as [input|p ps u v rest Hfirst _ IH]; intros z.
  - exists z. constructor.
  - assert (occurs p (z ++ u ++ p ++ v)) as Hocc
      by (exists (z ++ u), v; rewrite <- !app_assoc; reflexivity).
    destruct (Index_cases (z ++ u ++ p ++ v) p)
      as [[_ Hno]|(u' & [(v' & Hv') Hmin] & _)]; [destruct (Hno Hocc)|].
    assert (exists w, v' = w ++ v) as (w & ->).
    { pose proof (Hmin (z ++ u) v) as Hle.
      rewrite <- !app_assoc in Hle. specialize (Hle eq_refl).
      replace (z ++ u ++ p ++ v) with ((z ++ u ++ p) ++ v) in Hv'
        by (rewrite <- !app_assoc; reflexivity).
      rewrite (app_assoc u' p v') in Hv'. symmetry in Hv'.
      apply app_eq_inv in Hv'. destruct Hv' as [(k & Hk & Hv)|(k & Hk & Hv)].
      - apply (f_equal length) in Hk. rewrite length_app in Hle.
        destruct k as [|c k].
        + exists []. simpl in Hv. auto.
        + exfalso. repeat rewrite length_app in Hk. simpl in Hk. lia.
      - exists k. exact Hv. }
    destruct (IH w) as (z' & Hc). exists z'. rewrite Hv'.
    constructor; [|exact Hc]. rewrite <- Hv'. split; [|exact Hmin].
    exists (w ++ v). exact Hv'.
Qed.

Lemma HasPrefix_app (s p y : gostring) :
  HasPrefix s p = true -> HasPrefix (s ++ y) p = true.
Proof.
  rewrite !HasPrefix_spec. intros (w & ->). exists (w ++ y).
  rewrite <- app_assoc. reflexivity.
Qed.

Lemma HasSuffix_app (s p z : gostring) :
  HasSuffix s p = true -> HasSuffix (z ++ s) p = true.
Proof.
  rewrite !HasSuffix_spec. intros (w & ->). exists (z ++ w).
  rewrite <- app_assoc. reflexivity.
Qed.

Lemma Glob_true_parts (input pattern : gostring) :
  occurs globChar pattern -> pattern <> globChar ->
  exists p0 middle plast,
    (HasPrefix pattern globChar = true -> p0 = []) /\
    forall input, Glob input pattern = Some true
                  <-> glob_parts input pattern p0 middle plast = true.
Proof.
  intros Hocc Hne.
  destruct (Split_with_star pattern Hocc) as (p0 & middle & plast & tl & Hs & Heq & Hlead).
  assert (pattern <> []) as Hnil by (rewrite Heq; by_length).
  exists p0, middle, plast. split; [exact Hlead|]. intros i.
  rewrite (Glob_parts_run i pattern p0 middle plast Hnil Hne Hs).
  split; [apply Some_eq_inv | intros ->; reflexivity].
Qed.

(** X19: a pattern that ends with ['*'] ignores what follows a match: if it
    matches [input], it matches [input ++ y]. *)
Theorem Glob_trailing_star_extends (input pattern y : gostring) :
  HasSuffix pattern globChar = true ->
  Glob input pattern = Some true -> Glob (input ++ y) pattern = Some true.
Proof.
  intros Htrail.
  destruct (decide (pattern = globChar)) as [->|Hne]; [reflexivity|].
  assert (occurs globChar pattern) as Hocc.
  { apply HasSuffix_spec in Htrail. destruct Htrail as (w & ->).
    exists w, []. rewrite app_nil_r. reflexivity. }
  destruct (Glob_true_parts input pattern Hocc Hne) as (p0 & middle & plast & _ & Hrun).
  rewrite !Hrun, !glob_parts_true.
  intros (Hpre & rest & Hm & _). split.
  - destruct Hpre as [H|H]; [left; exact H | right; apply HasPrefix_app, H].
  - exists (rest ++ y). split; [|left; exact Htrail].
    apply glob_middle_consume, consume_append, glob_middle_consume, Hm.
Qed.

Lemma Glob_trailing_star_extends_witness :
  HasSuffix (lit "irc.*") globChar = true /\
  Glob (lit "irc.example") (lit "irc.*") = Some true /\
  Glob (lit "irc.example" ++ lit ".org") (lit "irc.*") = Some true.
Proof.
  split; [reflexivity|]. split; [reflexivity|].
  apply (Glob_trailing_star_extends (lit "irc.example") (lit "irc.*") (lit ".org"));
    reflexivity.
Defined.

(** X20: a pattern that starts with ['*'] ignores what precedes a match: if
    it matches [input], it matches [x ++ input]. *)
Theorem Glob_leading_star_extends (input pattern x : gostring) :
  HasPrefix pattern globChar = true ->
  Glob input pattern = Some true -> Glob (x ++ input) pattern = Some true.
Proof.
  intros Hlead.
  destruct (decide (pattern = globChar)) as [->|Hne]; [reflexivity|].
  assert (occurs globChar pattern) as Hocc.
  { apply HasPrefix_spec in Hlead. destruct Hlead as (w & ->).
    exists [], w. reflexivity. }
  destruct (Glob_true_parts input pattern Hocc Hne) as (p0 & middle & plast & _ & Hrun).
  rewrite !Hrun, !glob_parts_true.
  intros (_ & rest & Hm & Hend). split; [left; exact Hlead|].
  apply glob_middle_consume in Hm.
  destruct (consume_prepend middle input rest x Hm) as (z' & Hc).
  exists (z' ++ rest). split; [apply glob_middle_consume, Hc|].
  destruct Hend as [H|H]; [left; exact H | right; apply HasSuffix_app, H].
Qed.

Lemma Glob_leading_star_extends_witness :
  HasPrefix (lit "*.example.org") globChar = true /\
  Glob (lit "host.example.org") (lit "*.example.org") = Some true /\
  Glob (lit "nick!user@" ++ lit "host.example.org") (lit "*.example.org") = Some true.
Proof.
  split; [reflexivity|]. split; [reflexivity|].
  apply (Glob_leading_star_extends (lit "host.example.org") (lit "*.example.org")
           (lit "nick!user@")); reflexivity.
Defined.

(** ** IsValidChannel and the case mapping *)

Lemma IndexByte_fold (l : gostring) (c : byte) :
  (forall x, x ∈ l -> val8 x < 65) ->
  (IndexByte l (fold_byte c) =? -1) = (IndexByte l c =? -1).
Proof.
  intros Hl.
  assert (fold_byte c ∈ l <-> c ∈ l) as Hiff.
  { split; intros H.
    - pose proof (Hl _ H) as Hlow.
      assert (fold_byte c = fold_byte c) as E by reflexivity.
      apply (fold_byte_eq_low c (fold_byte c) Hlow) in E. rewrite E. exact H.
    - rewrite fold_byte_fixed; [exact H|]. unfold between.
      specialize (Hl _ H). lia. }
  destruct (IndexByte l c =? -1) eqn:E.
  - apply IndexByte_absent. apply IndexByte_absent in E. rewrite Hiff. exact E.
  - apply not_true_iff_false. apply not_true_iff_false in E.
    rewrite IndexByte_absent in *. rewrite Hiff. exact E.
Qed.

Lemma forallb_map_ext {A B} (f : B -> bool) (g : A -> B) (h : A -> bool) (l : list A) :
  (forall x, f (g x) = h x) -> forallb f (map g l) = forallb h l.
Proof.
  intros H. induction l as [|a l IH]; simpl; [reflexivity|].
  rewrite H, IH. reflexivity.
Qed.

(** X21: for a channel name without a byte above [0x7F] that does not start
    with ['!'], the name and its [ToRFC1459] form get the same verdict from
    [IsValidChannel]. (A ['!'] channel is excluded: its identifier must be
    uppercase.) *)
Theorem IsValidChannel_fold_invariant (c : gostring) :
  Forall (fun b => val8 b < 128) c -> c !! 0%nat <> Some "!"%byte ->
  exists f, ToRFC1459 c = Some f /\ IsValidChannel f = IsValidChannel c.
Proof.
  intros Hascii Hbang. rewrite (ToRFC1459_ascii c Hascii).
  eexists. split; [reflexivity|].
  rewrite !IsValidChannel_run. f_equal. unfold FoldCase_spec.
  destruct c as [|c0 t]; [reflexivity|].
  cbn [map channel_check]. unfold len. cbn [length]. rewrite length_map.
  assert (c0 <> "!"%byte) as Hc0 by (intros ->; apply Hbang; reflexivity).
  rewrite IndexByte_fold
    by (intros x Hx; repeat (apply elem_of_cons in Hx; destruct Hx as [->|Hx];
                             [vm_compute; reflexivity|]); inversion Hx).
  assert ((val8 (fold_byte c0) =? 33) = false) as ->.
  { apply Z.eqb_neq. intros E. apply Hc0.
    apply (fold_byte_eq_low c0 "!"%byte); [vm_compute; reflexivity|].
    apply val8_inj. exact E. }
  assert ((val8 c0 =? 33) = false) as ->.
  { apply Z.eqb_neq. intros E. apply Hc0, val8_inj. exact E. }
  f_equal. apply forallb_map_ext. intros b.
  unfold octet_bad. do 2 f_equal. apply IndexByte_fold.
  intros x Hx. repeat (apply elem_of_cons in Hx; destruct Hx as [->|Hx];
                       [vm_compute; reflexivity|]). inversion Hx.
Qed.

Lemma IsValidChannel_fold_invariant_witness :
  exists f, ToRFC1459 (lit "#Chan[1]") = Some f /\
    IsValidChannel f = IsValidChannel (lit "#Chan[1]").
Proof.
  apply (IsValidChannel_fold_invariant (lit "#Chan[1]")).
  - repeat constructor.
  - discriminate.
Defined.

(** ** Channels against nicknames and usernames *)

Lemma channel_check_first (c0 : byte) (t : gostring) :
  channel_check (c0 :: t) = true -> c0 ∈ lit "!#&*+".
Proof.
  unfold channel_check. rewrite !andb_true_iff.
  intros [[[_ H] _] _]. apply IndexByte_present in H. exact H.
Qed.

Lemma channel_prefix_not_name (c0 : byte) (t : gostring) :
  c0 ∈ lit "!#&*+" ->
  check_name nick_first (fun c => negb (nick_other_bad c))
    (flat_map fold_bytes (c0 :: t)) = false /\
  user_check (flat_map fold_bytes (c0 :: t)) = false.
Proof.
  intros H. unfold lit in H. simpl in H.
  change (flat_map fold_bytes (c0 :: t)) with (fold_bytes c0 ++ flat_map fold_bytes t).
  repeat (apply elem_of_cons in H; destruct H as [->|H]; [split; reflexivity|]).
  inversion H.
Qed.

(** X22: no string is both a valid channel and a valid nickname, nor both a
    valid channel and a valid username: the channel prefixes [! # & * +] are
    refused as a first byte by the other two validators. *)
Theorem channel_names_apart (s : gostring) :
  (c ← IsValidChannel s; n ← IsValidNick s; Some (c && n)) = Some false /\
  (c ← IsValidChannel s; u ← IsValidUser s; Some (c && u)) = Some false.
Proof.
  rewrite IsValidChannel_run, IsValidNick_run, IsValidUser_run.
  cbn [mbind option_bind].
  destruct (channel_check s) eqn:E; [|split; reflexivity].
  destruct s as [|c0 t]; [discriminate|].
  apply channel_check_first in E.
  destruct (channel_prefix_not_name c0 t E) as [-> ->]. split; reflexivity.
Qed.
